(** * mergePDF: the page-selection engine of the merge / trim page

    A shallow embedding of the React component [Home] (the revision of the
    page that has the trim mode): the array, [Set] and [Map] values held in the
    component state become lists, [gset Z] and [gmap Z Z]; every state
    setter becomes a function on an explicit [AppState]; the asynchronous
    handlers return the new state together with the downloads they
    triggered.  The pdf-lib decoder is an external collaborator and is a
    parameter of the development. *)

From Stdlib Require Import ZArith Ascii String List Lia.
From stdpp Require Import base option list list_numbers gmap sorting strings pretty.

Local Open Scope Z_scope.

(** ** Data model *)

(** A browser [File]: only its name, its MIME type and its bytes are read. *)
Record File := mkFile {
  file_name : string;
  file_type : string;
  file_bytes : list N
}.

(** [interface PDFFile]: [pageCount] is [number | null]. *)
Record PDFFile := mkPDFFile {
  pf_id : string;
  pf_file : File;
  pf_name : string;
  pf_pageCount : option Z
}.

(** [interface TrimFile] (the thumbnails are display-only and left out). *)
Record TrimFile := mkTrimFile {
  tf_file : File;
  tf_name : string;
  tf_pageCount : Z
}.

(** A page of an output document: a copy of page [page_index] (0-based) of
    the document decoded from [page_src]; [page_rotation] is [Some r] when
    [page.setRotation(degrees(r))] was called on the copy. *)
Record Page := mkPage {
  page_src : File;
  page_index : Z;
  page_rotation : option Z
}.

(** One [link.click()]: the [download] attribute and the saved document. *)
Record Download := mkDownload {
  dl_name : string;
  dl_pages : list Page
}.

(** The component state that the engine reads and writes. *)
Record AppState := mkState {
  files : list PDFFile;
  trimFile : option TrimFile;
  cutPoints : list Z;
  deletedPages : gset Z;
  rotations : gmap Z Z;
  error : option string
}.

Definition initialState : AppState :=
  mkState [] None [] ∅ ∅ None.

Definition setError (e : option string) (st : AppState) : AppState :=
  mkState (files st) (trimFile st) (cutPoints st) (deletedPages st)
          (rotations st) e.
Definition setFiles (fs : list PDFFile) (st : AppState) : AppState :=
  mkState fs (trimFile st) (cutPoints st) (deletedPages st)
          (rotations st) (error st).
Definition setCutPoints (cs : list Z) (st : AppState) : AppState :=
  mkState (files st) (trimFile st) cs (deletedPages st)
          (rotations st) (error st).
Definition setDeletedPages (d : gset Z) (st : AppState) : AppState :=
  mkState (files st) (trimFile st) (cutPoints st) d
          (rotations st) (error st).
Definition setRotations (r : gmap Z Z) (st : AppState) : AppState :=
  mkState (files st) (trimFile st) (cutPoints st) (deletedPages st)
          r (error st).

Definition MAX_FILES : Z := 5.
Definition MAX_CUTS : Z := 4.

(** ** Strings *)

(** [String.prototype.toLowerCase] on the ASCII letters. *)
Definition lower_ascii (c : ascii) : ascii :=
  let n := nat_of_ascii c in
  if (65 <=? n)%nat && (n <=? 90)%nat then ascii_of_nat (n + 32) else c.

Definition toLowerCase (s : string) : string :=
  string_of_list_ascii (lower_ascii <$> list_ascii_of_string s).

Definition endsWith (s suf : string) : bool :=
  bool_decide (list_ascii_of_string suf `suffix_of` list_ascii_of_string s).

(** [name.replace(/\.pdf$/i, '')]. *)
Definition baseNameOf (name : string) : string :=
  if endsWith (toLowerCase name) ".pdf"
  then string_of_list_ascii
         (take (length (list_ascii_of_string name) - 4)
               (list_ascii_of_string name))
  else name.

(** ** Trim mode: the setters *)

(** [prev.includes(x)] / [sortedCuts.includes(x)]. *)
Definition includes (l : list Z) (x : Z) : bool := bool_decide (x ∈ l).

(** [[...xs].sort((a, b) => a - b)]. *)
Definition sortAscending (l : list Z) : list Z := merge_sort Z.le l.

Definition toggleCutPoint (afterPage : Z) (st : AppState) : AppState :=
  let prev := cutPoints st in
  if includes prev afterPage then
    setCutPoints (filter (λ p, p ≠ afterPage) prev) st
  else if bool_decide (MAX_CUTS ≤ Z.of_nat (length prev)) then
    setError (Some ("Maximum " +:+ pretty MAX_CUTS +:+ " cut points ("
                    +:+ pretty (MAX_CUTS + 1) +:+ " parts)")%string) st
  else
    setCutPoints (sortAscending (prev ++ [afterPage])) (setError None st).

Definition toggleDeletePage (pageNum : Z) (st : AppState) : AppState :=
  let prev := deletedPages st in
  if bool_decide (pageNum ∈ prev) then
    setDeletedPages (prev ∖ {[pageNum]}) st
  else
    match trimFile st with
    | Some tf =>
        if bool_decide (tf_pageCount tf - 1 ≤ Z.of_nat (size prev)) then
          setError (Some "Cannot delete all pages"%string) st
        else setDeletedPages ({[pageNum]} ∪ prev) (setError None st)
    | None => setDeletedPages ({[pageNum]} ∪ prev) (setError None st)
    end.

(** [newMap.get(pageNum) || 0]: a missing entry and a stored [0] both
    read as [0]. *)
Definition rotationOf (m : gmap Z Z) (pageNum : Z) : Z :=
  default 0 (m !! pageNum).

Definition rotateMap (pageNum : Z) (prev : gmap Z Z) : gmap Z Z :=
  let currentRotation := rotationOf prev pageNum in
  let newRotation := Z.rem (currentRotation + 90) 360 in
  if bool_decide (newRotation = 0) then delete pageNum prev
  else <[pageNum := newRotation]> prev.

Definition rotatePage (pageNum : Z) (st : AppState) : AppState :=
  setRotations (rotateMap pageNum (rotations st)) st.

Definition hasModifications (st : AppState) : bool :=
  bool_decide (0 < size (deletedPages st))%nat
  || bool_decide (0 < size (rotations st))%nat
  || bool_decide (0 < length (cutPoints st))%nat.

(** ** Trim mode: the partition *)

(** [Array.from({ length: pageCount }, (_, i) => i + 1)
      .filter(p => !deletedPages.has(p))]. *)
Definition activePageNums (pageCount : Z) (deleted : gset Z) : list Z :=
  filter (λ p, p ∉ deleted) (seqZ 1 pageCount).

(** The body of the [for (const pageNum of activePageNums)] loop, on the
    pair [(ranges, currentRange)]. *)
Definition rangeStep (sortedCuts : list Z)
    (acc : list (list Z) * list Z) (pageNum : Z) : list (list Z) * list Z :=
  let currentRange := acc.2 ++ [pageNum] in
  if includes sortedCuts pageNum then (acc.1 ++ [currentRange], [])
  else (acc.1, currentRange).

(** The loop followed by the push of a non-empty trailing range. *)
Definition buildRanges (cuts : list Z) (active : list Z) : list (list Z) :=
  let sortedCuts := sortAscending cuts in
  let acc := foldl (rangeStep sortedCuts) ([], []) active in
  if bool_decide (0 < length acc.2)%nat then acc.1 ++ [acc.2] else acc.1.

(** The partition step of [processTrim] as a function of the three inputs. *)
Definition partitionPages (pageCount : Z) (cuts : list Z) (deleted : gset Z)
  : list (list Z) :=
  buildRanges cuts (activePageNums pageCount deleted).

(** The state of the loop after the pages of [l]. *)
Definition walk (sortedCuts l : list Z) : list (list Z) * list Z :=
  foldl (rangeStep sortedCuts) ([], []) l.

(** The parts of a loop state once the trailing range is pushed. *)
Definition partsOf (acc : list (list Z) * list Z) : list (list Z) :=
  acc.1 ++ (if bool_decide (0 < length acc.2)%nat then [acc.2] else []).

(** A part that the loop has pushed: it ends in a cut point and holds no
    other one. *)
Definition closedPart (sortedCuts r : list Z) : Prop :=
  ∃ body c, r = body ++ [c] ∧ c ∈ sortedCuts
            ∧ Forall (λ x, x ∉ sortedCuts) body.

(** ** Descriptions used in the statements *)

(** What one rotation does to the entry of the rotated page. *)
Definition nextEntry (o : option Z) : option Z :=
  let r := Z.rem (default 0 o + 90) 360 in
  if bool_decide (r = 0) then None else Some r.

Definition entryValid (o : option Z) : Prop :=
  o = None ∨ o = Some 90 ∨ o = Some 180 ∨ o = Some 270.

Definition rotationsValid (m : gmap Z Z) : Prop :=
  map_Forall (λ _ v, v = 90 ∨ v = 180 ∨ v = 270) m.

(** A sequence of presses of the rotate button. *)
Definition rotatePages (ps : list Z) (st : AppState) : AppState :=
  foldl (λ s p, rotatePage p s) st ps.

(** Page [p] of the source as it appears in an output document: copied from
    index [p - 1], its rotation replaced when the map holds a non-zero entry
    for [p]. *)
Definition trimmedPage (src : File) (rots : gmap Z Z) (p : Z) : Page :=
  mkPage src (p - 1)
         (if bool_decide (rotationOf rots p ≠ 0)
          then Some (rotationOf rots p) else None).

(** The name given to the part at index [i] of the loop. *)
Definition partName (baseName : string) (i : nat) : string :=
  baseName +:+ "-part" +:+ pretty (Z.of_nat i + 1) +:+ ".pdf".

(** The pages that one iteration of the merge loop appends. *)
Definition pagesOfSource (f : PDFFile) : list Page :=
  (λ i, mkPage (pf_file f) i None) <$> seqZ 0 (default 0 (pf_pageCount f)).

(** The merge plan in the words of the specification: for each source in
    the given order, one entry per page ordinal from 1 to its page count,
    in increasing order. *)
Definition plan_merge (sources : list PDFFile) : list (File * Z) :=
  flat_map (λ f, (λ p, (pf_file f, p)) <$> seqZ 1 (default 0 (pf_pageCount f)))
           sources.

(** [files.reduce((sum, f) => sum + (f.pageCount || 0), 0)]. *)
Definition totalPages (fs : list PDFFile) : Z :=
  foldl (λ sum f, sum + default 0 (pf_pageCount f)) 0 fs.

(** The source and the 1-based ordinal that a page of the output copies. *)
Definition pageOrigin (pg : Page) : File * Z := (page_src pg, page_index pg + 1).

(** ** Files offered to the page *)

(** [f.type === 'application/pdf' || f.name.toLowerCase().endsWith('.pdf')]. *)
Definition isPdf (f : File) : bool :=
  bool_decide (file_type f = "application/pdf"%string)
  || endsWith (toLowerCase (file_name f)) ".pdf".

(** [xs.slice(0, e)]: a negative [e] counts from the end of the array. *)
Definition slice0 {A} (l : list A) (e : Z) : list A :=
  if bool_decide (e < 0)
  then take (Z.to_nat (Z.max (Z.of_nat (length l) + e) 0)) l
  else take (Z.to_nat e) l.

(** ** The handlers that decode documents *)

Section Handlers.

(** [PDFDocument.load(bytes, { ignoreEncryption: true })] of pdf-lib: it
    throws ([None]) or yields a document, of which the engine observes the
    number of pages only. *)
Variable pdf_decode : File → option nat.

(** [pdfjsLib.getDocument] and the page renderer used for the previews:
    [false] when [generateThumbnails] throws. *)
Variable pdfjs_renders : File → bool.

(** A loaded [PDFDocument]. *)
Record PDFDoc := mkDoc { doc_src : File; doc_count : nat }.

Definition PDFDocument_load (f : File) : option PDFDoc :=
  n ← pdf_decode f; Some (mkDoc f n).

Definition doc_getPageCount (d : PDFDoc) : Z := Z.of_nat (doc_count d).

(** [pdf.getPageIndices()]: [0 .. count - 1]. *)
Definition getPageIndices (d : PDFDoc) : list Z := seqZ 0 (doc_getPageCount d).

(** [newPdf.copyPages(src, indices)]: throws on an index that names no
    page of [src]. *)
Definition copyPage (src : PDFDoc) (i : Z) : option Page :=
  if bool_decide (0 ≤ i < doc_getPageCount src)
  then Some (mkPage (doc_src src) i None) else None.

Definition copyPages (src : PDFDoc) (indices : list Z) : option (list Page) :=
  mapM (copyPage src) indices.

Definition getPageCount (f : File) : option Z :=
  doc_getPageCount <$> PDFDocument_load f.

(** *** Merge mode *)

(** [addFiles]; [new_id i] stands for the identifier drawn from the clock
    and [Math.random] for the [i]-th file that is added.  This is the
    handler run to completion on the state it was created from: the
    [files.length] it reads and the [prev] it appends to are the same
    queue.  ([addFilesRendered] below keeps the two apart, for calls that
    overlap.) *)
Definition addFiles (new_id : nat → string) (newFiles : list File)
    (st0 : AppState) : AppState :=
  let st := setError None st0 in
  let pdfFiles := filter (λ f, isPdf f = true) newFiles in
  if bool_decide (length pdfFiles = 0%nat) then
    setError (Some "Only PDF files are accepted"%string) st
  else
    let availableSlots := MAX_FILES - Z.of_nat (length (files st)) in
    let filesToAdd := slice0 pdfFiles availableSlots in
    let st1 :=
      if bool_decide (availableSlots < Z.of_nat (length pdfFiles)) then
        setError (Some ("Only " +:+ pretty availableSlots +:+ " more file"
                        +:+ (if bool_decide (availableSlots = 1)
                             then "" else "s")
                        +:+ " can be added")%string) st
      else st in
    let processedFiles :=
      imap (λ i file,
              mkPDFFile (new_id i) file (file_name file) (getPageCount file))
           filesToAdd in
    setFiles (files st1 ++ processedFiles) st1.

(** [removeFile]. *)
Definition removeFile (id : string) (st : AppState) : AppState :=
  setError None (setFiles (filter (λ f, pf_id f ≠ id) (files st)) st).

(** The [for (const pdfFile of files)] loop of [mergePDFs] on the pages
    of [mergedPdf]; [None] when an iteration throws. *)
Fixpoint mergeLoop (mergedPdf : list Page) (fs : list PDFFile)
  : option (list Page) :=
  match fs with
  | [] => Some mergedPdf
  | pdfFile :: rest =>
      pdf ← PDFDocument_load (pf_file pdfFile);
      pages ← copyPages pdf (getPageIndices pdf);
      mergeLoop (mergedPdf ++ pages) rest
  end.

Definition mergeFailed : option string :=
  Some "Failed to merge PDFs. Some files may be corrupted or encrypted."%string.

(** [mergePDFs]; [now] is [Date.now()] at the download.  The pages of the
    download are the pages added to [mergedPdf]: they are the pages of the
    written file when there is at least one ([save()] of pdf-lib gives a
    document without pages one blank page, which has no counterpart here).
    The result is the state when the handler returns; the timer that
    empties the queue one second after a successful merge is left out. *)
Definition mergePDFs (now : Z) (st : AppState) : AppState * list Download :=
  if bool_decide (length (files st) < 2)%nat then (st, [])
  else
    let st1 := setError None st in
    match mergeLoop [] (files st1) with
    | Some mergedPdf =>
        (st1, [mkDownload ("merged-" +:+ pretty now +:+ ".pdf") mergedPdf])
    | None =>
        (setError mergeFailed st1, [])
    end.

(** *** Trim mode *)

Definition addTrimFile (newFiles : list File) (st0 : AppState) : AppState :=
  let st := setError None st0 in
  let pdfFiles := filter (λ f, isPdf f = true) newFiles in
  match pdfFiles with
  | [] => setError (Some "Only PDF files are accepted"%string) st
  | file :: _ =>
      match getPageCount file with
      | None =>
          setError (Some "Could not read PDF. File may be corrupted or encrypted."%string) st
      | Some pageCount =>
          if bool_decide (pageCount < 1) then
            setError (Some "PDF appears to be empty"%string) st
          else if pdfjs_renders file then
            mkState (files st)
                    (Some (mkTrimFile file (file_name file) pageCount))
                    [] ∅ ∅ (error st)
          else
            setError (Some "Could not generate page previews. File may be corrupted."%string) st
      end
  end.

(** The [pages.forEach((page, idx) => ...)] of [processTrim]:
    [pageNums[idx]] is the original page number of [pages[idx]]. *)
Definition applyRotations (rots : gmap Z Z) (pageNums : list Z)
    (pages : list Page) : list Page :=
  imap (λ idx page,
          let rotation :=
            match pageNums !! idx with
            | Some originalPageNum => rotationOf rots originalPageNum
            | None => 0
            end in
          if bool_decide (rotation ≠ 0)
          then mkPage (page_src page) (page_index page) (Some rotation)
          else page)
       pages.

(** One output document: copy the pages, then rotate them. *)
Definition buildPdf (sourcePdf : PDFDoc) (rots : gmap Z Z)
    (pageNums : list Z) : option (list Page) :=
  pages ← copyPages sourcePdf ((λ p, p - 1) <$> pageNums);
  Some (applyRotations rots pageNums pages).

(** The [for (let i = 0; i < ranges.length; i++)] loop from index [i] on:
    the downloads it triggers, and [false] when an iteration throws. *)
Fixpoint emitParts (sourcePdf : PDFDoc) (rots : gmap Z Z) (baseName : string)
    (i : nat) (ranges : list (list Z)) : list Download * bool :=
  match ranges with
  | [] => ([], true)
  | rangePages :: rest =>
      if bool_decide (length rangePages = 0%nat) then
        emitParts sourcePdf rots baseName (S i) rest
      else
        match buildPdf sourcePdf rots rangePages with
        | None => ([], false)
        | Some newPdf =>
            let r := emitParts sourcePdf rots baseName (S i) rest in
            (mkDownload (baseName +:+ "-part" +:+ pretty (Z.of_nat i + 1)
                         +:+ ".pdf") newPdf :: r.1, r.2)
        end
  end.

Definition trimFailed : option string :=
  Some "Failed to process PDF. File may be corrupted or encrypted."%string.

(** [processTrim].  The pages of a download are the pages added to
    [newPdf]: they are the pages of the written file when there is at
    least one ([save()] of pdf-lib gives a document without pages one blank
    page, which has no counterpart here).  The result is the state when
    the handler returns; the timer that clears the document and its edits
    one second after a run that did not throw is left out. *)
Definition processTrim (st : AppState) : AppState * list Download :=
  match trimFile st with
  | None => (st, [])
  | Some tf =>
      if negb (hasModifications st) then (st, [])
      else
        let st1 := setError None st in
        match PDFDocument_load (tf_file tf) with
        | None => (setError trimFailed st1, [])
        | Some sourcePdf =>
            let active := activePageNums (tf_pageCount tf) (deletedPages st) in
            let baseName := baseNameOf (tf_name tf) in
            if bool_decide (length (cutPoints st) = 0%nat) then
              match buildPdf sourcePdf (rotations st) active with
              | None => (setError trimFailed st1, [])
              | Some newPdf =>
                  (st1, [mkDownload (baseName +:+ "-trimmed.pdf") newPdf])
              end
            else
              let ranges := buildRanges (cutPoints st) active in
              let r := emitParts sourcePdf (rotations st) baseName 0 ranges in
              (if r.2 then st1 else setError trimFailed st1, r.1)
        end
  end.

(** The state that [addTrimFile] leaves: the page count is the one the
    decoder reports for the file. *)
Definition trimLoaded (st : AppState) (tf : TrimFile) : Prop :=
  trimFile st = Some tf
  ∧ getPageCount (tf_file tf) = Some (tf_pageCount tf).

(** What [addFiles] stores: the page count that the decoder reports, or
    null when the file does not decode. *)
Definition queueConsistent (fs : list PDFFile) : Prop :=
  Forall (λ f, pf_pageCount f = getPageCount (pf_file f)) fs.

(** The queue entry that [addFiles] builds for the [i]-th added file. *)
Definition queued (new_id : nat → string) (i : nat) (file : File) : PDFFile :=
  mkPDFFile (new_id i) file (file_name file) (getPageCount file).

End Handlers.

(** ** The rest of the page *)

(** [type Mode = 'merge' | 'trim']. *)
Inductive Mode := mode_merge | mode_trim.

(** [removeTrimFile]. *)
Definition removeTrimFile (st : AppState) : AppState :=
  mkState (files st) None [] ∅ ∅ None.

(** [handleModeChange]: the new mode and the state after the resets. *)
Definition handleModeChange (newMode : Mode) (st : AppState) : Mode * AppState :=
  (newMode, mkState [] None [] ∅ ∅ None).

(** [getPartForPage], the part number shown on a thumbnail. *)
Definition getPartForPage (cuts : list Z) (pageNum : Z) : Z :=
  foldl (λ part cut, if bool_decide (pageNum > cut) then part + 1 else part)
        1 cuts.

(** The header of the proof sheet: [trimFile.pageCount - deletedPages.size]. *)
Definition pagesShown (tf : TrimFile) (st : AppState) : Z :=
  tf_pageCount tf - Z.of_nat (size (deletedPages st)).

(** The number in the button text [SPLIT INTO ${cutPoints.length + 1} FILES]. *)
Definition filesAnnounced (st : AppState) : Z :=
  Z.of_nat (length (cutPoints st)) + 1.

(** An array element inside a template literal. *)
Definition showElement (o : option Z) : string :=
  match o with
  | Some x => pretty x
  | None => "undefined"
  end.

(** The text of one range in the split preview: the page, or the first
    and the last page around an en dash. *)
Definition rangeLabel (currentRange : list Z) : string :=
  if bool_decide (length currentRange = 1%nat)
  then showElement (currentRange !! 0%nat)
  else showElement (currentRange !! 0%nat) +:+ "–"
       +:+ showElement (currentRange !! (length currentRange - 1)%nat).

(** The body of the loop of the split preview, on [(ranges, currentRange)]. *)
Definition previewStep (sortedCuts : list Z)
    (acc : list string * list Z) (pageNum : Z) : list string * list Z :=
  let currentRange := acc.2 ++ [pageNum] in
  if includes sortedCuts pageNum then
    (if bool_decide (0 < length currentRange)%nat
     then acc.1 ++ [rangeLabel currentRange] else acc.1, [])
  else (acc.1, currentRange).

(** The badges of the split preview: [PART ${idx + 1}: ${range}]. *)
Definition previewBadges (pageCount : Z) (cuts : list Z) (deleted : gset Z)
  : list string :=
  let activePages := activePageNums pageCount deleted in
  let sortedCuts := sortAscending cuts in
  let acc := foldl (previewStep sortedCuts) ([], []) activePages in
  let ranges :=
    if bool_decide (0 < length acc.2)%nat
    then acc.1 ++ [rangeLabel acc.2] else acc.1 in
  imap (λ idx range, "PART " +:+ pretty (Z.of_nat idx + 1) +:+ ": " +:+ range)
       ranges.


(** One edit of the trim session, and a sequence of edits. *)
Inductive TrimAction :=
  | ToggleCut (afterPage : Z)
  | ToggleDelete (pageNum : Z)
  | Rotate (pageNum : Z).

Definition applyAction (a : TrimAction) (st : AppState) : AppState :=
  match a with
  | ToggleCut afterPage => toggleCutPoint afterPage st
  | ToggleDelete pageNum => toggleDeletePage pageNum st
  | Rotate pageNum => rotatePage pageNum st
  end.

Definition applyActions (acts : list TrimAction) (st : AppState) : AppState :=
  foldl (λ s a, applyAction a s) st acts.

Section Overlap.

Variable pdf_decode : File → option nat.

(** [addFiles] with the two queues that the code reads kept apart:
    [renderedLength] is the [files.length] of the render that created the
    callback (its [useCallback] dependency), from which the free slots are
    computed, and [st0] holds the [prev] that the updater of [setFiles]
    appends to.  Two calls created by the same render share
    [renderedLength]. *)
Definition addFilesRendered (renderedLength : nat) (new_id : nat → string)
    (newFiles : list File) (st0 : AppState) : AppState :=
  let st := setError None st0 in
  let pdfFiles := filter (λ f, isPdf f = true) newFiles in
  if bool_decide (length pdfFiles = 0%nat) then
    setError (Some "Only PDF files are accepted"%string) st
  else
    let availableSlots := MAX_FILES - Z.of_nat renderedLength in
    let filesToAdd := slice0 pdfFiles availableSlots in
    let st1 :=
      if bool_decide (availableSlots < Z.of_nat (length pdfFiles)) then
        setError (Some ("Only " +:+ pretty availableSlots +:+ " more file"
                        +:+ (if bool_decide (availableSlots = 1)
                             then "" else "s")
                        +:+ " can be added")%string) st
      else st in
    let processedFiles :=
      imap (λ i file,
              mkPDFFile (new_id i) file (file_name file)
                        (getPageCount pdf_decode file))
           filesToAdd in
    setFiles (files st1 ++ processedFiles) st1.

End Overlap.

(** [getActivePages]. *)
Definition getActivePages (st : AppState) : list Z :=
  match trimFile st with
  | None => []
  | Some tf => activePageNums (tf_pageCount tf) (deletedPages st)
  end.

(** The states of the merge queue: from the empty page by calls of
    [addFiles], each with the queue length of some render, by [removeFile],
    by the drag of an entry ([onReorder={setFiles}], which hands over the
    entries of the list that some render showed, in a new order) and by
    the timer of [mergePDFs], which empties the queue. *)
Inductive mergeReachable (pdf_decode : File → option nat) : AppState → Prop :=
  | reach_initial : mergeReachable pdf_decode initialState
  | reach_addFiles renderedLength new_id offered st :
      mergeReachable pdf_decode st →
      mergeReachable pdf_decode
        (addFilesRendered pdf_decode renderedLength new_id offered st)
  | reach_removeFile id st :
      mergeReachable pdf_decode st →
      mergeReachable pdf_decode (removeFile id st)
  | reach_reorder newOrder shown st :
      mergeReachable pdf_decode st → mergeReachable pdf_decode shown →
      newOrder ≡ₚ files shown →
      mergeReachable pdf_decode (setFiles newOrder st)
  | reach_timer st :
      mergeReachable pdf_decode st →
      mergeReachable pdf_decode (setFiles [] st).

(** What holds of the trim state between two edits of a loaded document. *)
Definition sessionInvariant (pdf_decode : File → option nat)
    (st : AppState) (tf : TrimFile) : Prop :=
  trimLoaded pdf_decode st tf
  ∧ Z.of_nat (size (deletedPages st)) ≤ tf_pageCount tf - 1
  ∧ StronglySorted Z.lt (cutPoints st)
  ∧ (length (cutPoints st) ≤ 4)%nat
  ∧ rotationsValid (rotations st).

(** ** Sample inputs *)

(** A decoder for the examples: the first byte of a file gives its number
    of pages and an empty file does not decode. *)
Definition sampleDecode (f : File) : option nat :=
  match file_bytes f with
  | [] => None
  | n :: _ => Some (N.to_nat n)
  end.

Definition sampleRenders (f : File) : bool := true.

Definition sampleId (i : nat) : string := "id" +:+ pretty i.

Definition threePages : File := mkFile "a.pdf" "application/pdf" [3%N].
Definition twoPages : File := mkFile "b.PDF" "" [2%N].
Definition fivePages : File := mkFile "report.pdf" "application/pdf" [5%N].
Definition unreadable : File := mkFile "c.pdf" "" [].
Definition alsoUnreadable : File := mkFile "d.pdf" "application/pdf" [].

(** * Properties *)

(** ** The partition walk *)

Section Partition.
Implicit Types (cuts sortedCuts active l r : list Z) (p c : Z).

Lemma includes_spec l p : includes l p = true ↔ p ∈ l.
Proof. unfold includes. apply bool_decide_eq_true. Qed.

Lemma elem_of_sortAscending cuts p : p ∈ sortAscending cuts ↔ p ∈ cuts.
Proof. unfold sortAscending. by rewrite merge_sort_Permutation. Qed.

Lemma includes_sortAscending cuts p :
  includes (sortAscending cuts) p = includes cuts p.
Proof.
  unfold includes. apply bool_decide_ext, elem_of_sortAscending.
Qed.

Lemma walk_snoc sortedCuts l p :
  walk sortedCuts (l ++ [p]) = rangeStep sortedCuts (walk sortedCuts l) p.
Proof. unfold walk. by rewrite foldl_snoc. Qed.

Lemma closedPart_nonempty sortedCuts r : closedPart sortedCuts r → r ≠ [].
Proof. intros (body & c & -> & _) H. by destruct body. Qed.

Lemma closedPart_last sortedCuts r p :
  closedPart sortedCuts r → last r = Some p → p ∈ sortedCuts.
Proof.
  intros (body & c & -> & Hc & _). rewrite last_snoc. congruence.
Qed.

Lemma closedPart_cut_is_last sortedCuts r p :
  closedPart sortedCuts r → p ∈ r → p ∈ sortedCuts → last r = Some p.
Proof.
  intros (body & c & -> & Hc & Hbody) Hin Hp.
  rewrite last_snoc. apply elem_of_app in Hin as [Hin | Hin].
  - rewrite Forall_forall in Hbody. by destruct (Hbody p Hin).
  - apply list_elem_of_singleton in Hin. by subst.
Qed.

Lemma walk_concat sortedCuts l :
  concat (walk sortedCuts l).1 ++ (walk sortedCuts l).2 = l.
Proof.
  induction l as [| p l IH] using rev_ind; [done |].
  rewrite walk_snoc. unfold rangeStep.
  destruct (includes sortedCuts p); simpl.
  - rewrite concat_app. simpl. rewrite !app_nil_r, app_assoc.
    by rewrite IH.
  - by rewrite app_assoc, IH.
Qed.

Lemma walk_closed sortedCuts l :
  Forall (closedPart sortedCuts) (walk sortedCuts l).1
  ∧ Forall (λ x, x ∉ sortedCuts) (walk sortedCuts l).2.
Proof.
  induction l as [| p l [IH1 IH2]] using rev_ind.
  { split; constructor. }
  rewrite walk_snoc. unfold rangeStep.
  destruct (includes sortedCuts p) eqn:Hp; simpl.
  - split; [| constructor].
    apply Forall_app. split; [done |]. constructor; [| constructor].
    exists (walk sortedCuts l).2, p. by rewrite <- includes_spec.
  - split; [done |]. apply Forall_app. split; [done |].
    constructor; [| constructor].
    rewrite <- includes_spec, Hp. discriminate.
Qed.

(** Only the cut points met on the walk matter. *)
Lemma walk_ext sortedCuts sortedCuts' l :
  (∀ p, p ∈ l → (p ∈ sortedCuts ↔ p ∈ sortedCuts')) →
  walk sortedCuts l = walk sortedCuts' l.
Proof.
  induction l as [| p l IH] using rev_ind; [done |].
  intros H. rewrite !walk_snoc, IH.
  - unfold rangeStep.
    replace (includes sortedCuts' p) with (includes sortedCuts p); [done |].
    unfold includes. apply bool_decide_ext, H.
    apply elem_of_app. right. by apply list_elem_of_singleton.
  - intros q Hq. apply H, elem_of_app. by left.
Qed.

Lemma buildRanges_walk cuts active :
  buildRanges cuts active =
    (walk (sortAscending cuts) active).1
    ++ (if bool_decide (0 < length (walk (sortAscending cuts) active).2)%nat
        then [(walk (sortAscending cuts) active).2] else []).
Proof.
  unfold buildRanges, walk. simpl. case_bool_decide; [done |].
  by rewrite app_nil_r.
Qed.

Lemma buildRanges_concat cuts active :
  concat (buildRanges cuts active) = active.
Proof.
  rewrite buildRanges_walk, concat_app.
  etrans; [| apply (walk_concat (sortAscending cuts) active)].
  f_equal. case_bool_decide as H; simpl; [by rewrite app_nil_r |].
  destruct (walk (sortAscending cuts) active).2; [done | simpl in H; lia].
Qed.

Lemma buildRanges_nonempty cuts active :
  Forall (λ r, r ≠ []) (buildRanges cuts active).
Proof.
  rewrite buildRanges_walk. apply Forall_app. split.
  - eapply Forall_impl; [apply walk_closed |].
    apply closedPart_nonempty.
  - case_bool_decide as H; constructor; [| constructor].
    intros E. rewrite E in H. simpl in H. lia.
Qed.

(** The last page of the walk closes a part whether it is a cut point or
    not. *)
Lemma buildRanges_snoc cuts l p :
  buildRanges cuts (l ++ [p]) =
    (walk (sortAscending cuts) l).1 ++ [(walk (sortAscending cuts) l).2 ++ [p]].
Proof.
  rewrite buildRanges_walk, walk_snoc. unfold rangeStep.
  destruct (includes (sortAscending cuts) p); simpl.
  - by rewrite app_nil_r.
  - rewrite bool_decide_eq_true_2; [done |].
    rewrite length_app. simpl. lia.
Qed.

Lemma buildRanges_ext cuts cuts' active :
  (∀ p, p ∈ active → (p ∈ cuts ↔ p ∈ cuts')) →
  buildRanges cuts active = buildRanges cuts' active.
Proof.
  intros H. rewrite !buildRanges_walk.
  rewrite (walk_ext (sortAscending cuts) (sortAscending cuts') active); [done |].
  intros p Hp. rewrite !elem_of_sortAscending. by apply H.
Qed.

Lemma buildRanges_ext_snoc cuts cuts' l p :
  (∀ q, q ∈ l → (q ∈ cuts ↔ q ∈ cuts')) →
  buildRanges cuts (l ++ [p]) = buildRanges cuts' (l ++ [p]).
Proof.
  intros H. rewrite !buildRanges_snoc.
  rewrite (walk_ext (sortAscending cuts) (sortAscending cuts') l); [done |].
  intros q Hq. rewrite !elem_of_sortAscending. by apply H.
Qed.

End Partition.

(** ** The surviving sequence *)

Section Surviving.
Implicit Types (n p : Z) (deleted : gset Z).

Lemma elem_of_activePageNums n deleted p :
  p ∈ activePageNums n deleted ↔ (1 ≤ p ≤ n) ∧ p ∉ deleted.
Proof.
  unfold activePageNums. rewrite list_elem_of_filter, elem_of_seqZ.
  split; intros [? ?]; split; auto; lia.
Qed.

Lemma seqZ_increasing (k : nat) m : StronglySorted Z.lt (seqZ m (Z.of_nat k)).
Proof.
  revert m. induction k as [| k IH]; intros m.
  { rewrite seqZ_nil by lia. constructor. }
  rewrite seqZ_cons by lia.
  replace (Z.pred (Z.of_nat (S k))) with (Z.of_nat k) by lia.
  constructor; [apply IH |].
  apply Forall_forall. intros x Hx. apply elem_of_seqZ in Hx. lia.
Qed.

Lemma filter_increasing (P : Z → Prop) `{!∀ x, Decision (P x)} (l : list Z) :
  StronglySorted Z.lt l → StronglySorted Z.lt (filter P l).
Proof.
  induction 1 as [| x l Hl IH Hx]; [constructor |].
  rewrite filter_cons. case_decide; [| done].
  constructor; [done |].
  apply Forall_forall. intros y Hy. apply list_elem_of_filter in Hy as [_ Hy].
  rewrite Forall_forall in Hx. by apply Hx.
Qed.

Lemma activePageNums_increasing n deleted :
  StronglySorted Z.lt (activePageNums n deleted).
Proof.
  unfold activePageNums. apply filter_increasing.
  destruct (decide (n ≤ 0)) as [Hn | Hn].
  - rewrite seqZ_nil by done. constructor.
  - rewrite <- (Z2Nat.id n) by lia. apply seqZ_increasing.
Qed.

Lemma activePageNums_NoDup n deleted : NoDup (activePageNums n deleted).
Proof. apply NoDup_filter, NoDup_seqZ. Qed.

(** With at most [n - 1] pages deleted, a page of [1..n] survives. *)
Lemma survivor_exists (n : Z) (deleted : gset Z) :
  Z.of_nat (size deleted) ≤ n - 1 → activePageNums n deleted ≠ [].
Proof.
  intros Hsize Hnil.
  assert (Hsub : list_to_set (seqZ 1 n) ⊆ deleted).
  { intros p Hp. apply elem_of_list_to_set, elem_of_seqZ in Hp.
    destruct (decide (p ∈ deleted)) as [| Hout]; [done |].
    assert (Hin : p ∈ activePageNums n deleted).
    { apply elem_of_activePageNums. split; [lia | done]. }
    rewrite Hnil in Hin. by apply elem_of_nil in Hin. }
  apply subseteq_size in Hsub.
  rewrite size_list_to_set in Hsub by apply NoDup_seqZ.
  rewrite length_seqZ in Hsub. lia.
Qed.

Lemma elem_of_concat (parts : list (list Z)) (x : Z) :
  x ∈ concat parts ↔ ∃ r, r ∈ parts ∧ x ∈ r.
Proof.
  rewrite list_elem_of_In, in_concat.
  split; intros (r & Hr & Hx); exists r; by rewrite ?list_elem_of_In in *.
Qed.

(** In a strictly increasing concatenation, an earlier part lies wholly
    below a later one. *)
Lemma concat_increasing_parts (parts : list (list Z)) (i j : nat)
    (r s : list Z) (x y : Z) :
  StronglySorted Z.lt (concat parts) →
  parts !! i = Some r → parts !! j = Some s → (i < j)%nat →
  x ∈ r → y ∈ s → x < y.
Proof.
  revert i j. induction parts as [| r0 parts IH]; intros i j Hs Hi Hj Hij Hx Hy.
  { by rewrite lookup_nil in Hi. }
  simpl in Hs. destruct j as [| j]; [lia |]. simpl in Hj.
  destruct i as [| i]; simpl in Hi.
  - injection Hi as ->.
    eapply (StronglySorted_app_1_elem_of _ _ _ _ _ Hs); [done |].
    apply elem_of_concat. exists s. split; [| done].
    by eapply list_elem_of_lookup_2.
  - eapply (IH i j); eauto using StronglySorted_app_1_r. lia.
Qed.

End Surviving.

(** ** The partition of [processTrim] *)

Lemma partitionPages_concat n cuts deleted :
  concat (partitionPages n cuts deleted) = activePageNums n deleted.
Proof. apply buildRanges_concat. Qed.

Lemma partitionPages_part_last n cuts deleted r p :
  r ∈ partitionPages n cuts deleted → last r = Some p →
  p ∈ cuts ∨ last (activePageNums n deleted) = Some p.
Proof.
  unfold partitionPages. rewrite buildRanges_walk.
  set (w := walk (sortAscending cuts) (activePageNums n deleted)).
  intros Hr Hl. apply elem_of_app in Hr as [Hr | Hr].
  - left. apply elem_of_sortAscending.
    destruct (walk_closed (sortAscending cuts) (activePageNums n deleted))
      as [Hc _].
    rewrite Forall_forall in Hc. eapply closedPart_last; eauto.
  - right. case_bool_decide as Hlen; [| by apply elem_of_nil in Hr].
    apply list_elem_of_singleton in Hr. subst r.
    rewrite <- (walk_concat (sortAscending cuts) (activePageNums n deleted)).
    fold w. rewrite last_app, Hl. done.
Qed.

Lemma partitionPages_cut_closes n cuts deleted c :
  c ∈ cuts → c ∈ activePageNums n deleted →
  ∃ r, r ∈ partitionPages n cuts deleted ∧ last r = Some c.
Proof.
  intros Hc Ha. unfold partitionPages. rewrite buildRanges_walk.
  destruct (walk_closed (sortAscending cuts) (activePageNums n deleted))
    as [Hclosed Hopen].
  rewrite <- (walk_concat (sortAscending cuts) (activePageNums n deleted)) in Ha.
  apply elem_of_sortAscending in Hc.
  apply elem_of_app in Ha as [Ha | Ha].
  - apply elem_of_concat in Ha as (r & Hr & Hin). exists r. split.
    + apply elem_of_app. by left.
    + rewrite Forall_forall in Hclosed.
      eapply closedPart_cut_is_last; eauto.
  - rewrite Forall_forall in Hopen. by destruct (Hopen c Ha).
Qed.

(** C1 (partition coverage): for every page count [n], every set of
    deleted pages and every list of cut points (the invariants of the data
    model are not needed), the parts built by the partition step of
    [processTrim], laid end to end, are exactly the surviving sequence;
    every surviving page lies in exactly one part; a part holds only
    surviving pages of [1..n]; no page occurs twice; no part is empty; every
    part is strictly increasing and an earlier part lies wholly below a
    later one, so the parts come in ascending order of their minimum. *)
Theorem partition_coverage (n : Z) (cuts : list Z) (deleted : gset Z) :
  let parts := partitionPages n cuts deleted in
  concat parts = activePageNums n deleted
  ∧ (∀ p, (1 ≤ p ≤ n) → p ∉ deleted →
       ∃ i r, parts !! i = Some r ∧ p ∈ r
              ∧ ∀ j s, parts !! j = Some s → p ∈ s → j = i)
  ∧ (∀ r p, r ∈ parts → p ∈ r → (1 ≤ p ≤ n) ∧ p ∉ deleted)
  ∧ NoDup (concat parts)
  ∧ Forall (λ r, r ≠ []) parts
  ∧ Forall (StronglySorted Z.lt) parts
  ∧ (∀ i j r s x y, parts !! i = Some r → parts !! j = Some s →
       (i < j)%nat → x ∈ r → y ∈ s → x < y).
Proof.
  intros parts.
  assert (Hcat : concat parts = activePageNums n deleted)
    by apply partitionPages_concat.
  assert (Hsorted : StronglySorted Z.lt (concat parts))
    by (rewrite Hcat; apply activePageNums_increasing).
  assert (Hlt : ∀ i j r s x y, parts !! i = Some r → parts !! j = Some s →
       (i < j)%nat → x ∈ r → y ∈ s → x < y).
  { intros i j r s x y Hi Hj Hij Hx Hy.
    exact (concat_increasing_parts parts i j r s x y Hsorted Hi Hj Hij Hx Hy). }
  split_and!.
  - done.
  - intros p Hp Hd.
    assert (Hin : p ∈ concat parts).
    { rewrite Hcat. by apply elem_of_activePageNums. }
    apply elem_of_concat in Hin as (r & Hr & Hin).
    apply list_elem_of_lookup_1 in Hr as [i Hi].
    exists i, r. split_and!; [done | done |].
    intros j s Hj Hs.
    destruct (Nat.lt_trichotomy j i) as [Hji | [-> | Hij]]; [| done |].
    + pose proof (Hlt j i s r p p Hj Hi Hji Hs Hin). lia.
    + pose proof (Hlt i j r s p p Hi Hj Hij Hin Hs). lia.
  - intros r p Hr Hp. apply elem_of_activePageNums.
    rewrite <- Hcat. apply elem_of_concat. eauto.
  - rewrite Hcat. apply activePageNums_NoDup.
  - apply buildRanges_nonempty.
  - clear Hlt Hcat. induction parts as [| r parts' IH]; [constructor |].
    simpl in Hsorted. constructor.
    + eapply StronglySorted_app_1_l, Hsorted.
    + eapply IH, StronglySorted_app_1_r, Hsorted.
  - done.
Qed.

Lemma partition_coverage_witness :
  concat (partitionPages 5 [2; 3] {[3]}) = [1; 2; 4; 5]
  ∧ ∃ i r, partitionPages 5 [2; 3] {[3]} !! i = Some r ∧ 4 ∈ r
           ∧ ∀ j s, partitionPages 5 [2; 3] {[3]} !! j = Some s → 4 ∈ s → j = i.
Proof.
  destruct (partition_coverage 5 [2; 3] {[3]}) as (Hcat & Hone & _).
  split.
  - rewrite Hcat. vm_compute. reflexivity.
  - apply Hone; [lia |]. apply not_elem_of_singleton. discriminate.
Defined.

(** C2 (inert-cut tie-break): a cut point on a deleted page contributes no
    boundary (the parts are those obtained without it); a cut point on a
    surviving page is the last page of a part; a part ends only at a
    surviving page that is a cut point or the last surviving page; and
    [pageCount = 5], [cutPoints = {2,3}], [deletedPages = {3}] gives the two
    parts [1,2] and [4,5]. *)
Theorem inert_cut_tie_break (n : Z) (cuts : list Z) (deleted : gset Z) (c : Z) :
  c ∈ cuts →
  let parts := partitionPages n cuts deleted in
  (c ∈ deleted →
     parts = partitionPages n (filter (λ x, x ≠ c) cuts) deleted)
  ∧ (1 ≤ c ≤ n → c ∉ deleted → ∃ r, r ∈ parts ∧ last r = Some c)
  ∧ (∀ r p, r ∈ parts → last r = Some p →
       (p ∉ deleted)
       ∧ (p ∈ cuts ∨ last (activePageNums n deleted) = Some p))
  ∧ partitionPages 5 [2; 3] {[3]} = [[1; 2]; [4; 5]].
Proof.
  intros Hc parts. split_and!.
  - intros Hd. apply buildRanges_ext. intros p Hp.
    apply elem_of_activePageNums in Hp as [_ Hp].
    rewrite list_elem_of_filter. split; [| tauto].
    intros Hin. split; [| done]. intros ->. done.
  - intros Hn Hd. apply partitionPages_cut_closes; [done |].
    by apply elem_of_activePageNums.
  - intros r p Hr Hl. split; [| by eapply partitionPages_part_last].
    assert (Hin : p ∈ activePageNums n deleted).
    { rewrite <- (partitionPages_concat n cuts deleted).
      apply elem_of_concat. exists r. split; [done |].
      by apply last_Some_elem_of. }
    by apply elem_of_activePageNums in Hin as [? ?].
  - vm_compute. reflexivity.
Qed.

Lemma inert_cut_tie_break_witness :
  partitionPages 5 [2; 3] {[3]}
  = partitionPages 5 (filter (λ x, x ≠ 3) [2; 3]) {[3]}
  ∧ ∃ r, r ∈ partitionPages 5 [2; 3] {[3]} ∧ last r = Some 2.
Proof.
  assert (H2 : 2 ∈ [2; 3]) by (by constructor).
  assert (H3 : 3 ∈ [2; 3]) by (by do 2 constructor).
  destruct (inert_cut_tie_break 5 [2; 3] {[3]} 3 H3) as (Hinert & _).
  destruct (inert_cut_tie_break 5 [2; 3] {[3]} 2 H2) as (_ & Hcloses & _).
  split.
  - apply Hinert. by apply elem_of_singleton.
  - apply Hcloses; [lia |]. apply not_elem_of_singleton. discriminate.
Defined.

(** ** The documents written by [processTrim] *)

Section TrimOutput.
Variable pdf_decode : File → option nat.
Implicit Types (st : AppState) (tf : TrimFile) (rots : gmap Z Z).

Lemma addTrimFile_loaded renders newFiles st :
  (∀ tf, trimFile st = Some tf → trimLoaded pdf_decode st tf) →
  ∀ tf, trimFile (addTrimFile pdf_decode renders newFiles st) = Some tf →
        trimLoaded pdf_decode (addTrimFile pdf_decode renders newFiles st) tf.
Proof.
  intros Hinv tf. unfold addTrimFile, trimLoaded.
  assert (Hkeep : trimFile st = Some tf →
            trimFile st = Some tf
            ∧ getPageCount pdf_decode (tf_file tf) = Some (tf_pageCount tf))
    by (intros H; apply (Hinv tf H)).
  destruct (filter _ newFiles) as [| file rest]; simpl; [done |].
  destruct (getPageCount pdf_decode file) as [pageCount |] eqn:Hc; simpl;
    [| done].
  case_bool_decide; simpl; [done |].
  destruct (renders file); simpl; [| done].
  intros [= <-]. simpl. auto.
Qed.

Lemma trimLoaded_load st tf :
  trimLoaded pdf_decode st tf →
  ∃ k, PDFDocument_load pdf_decode (tf_file tf) = Some (mkDoc (tf_file tf) k)
       ∧ tf_pageCount tf = Z.of_nat k.
Proof.
  intros [_ H]. unfold getPageCount, PDFDocument_load in *.
  destruct (pdf_decode (tf_file tf)) as [k |]; simpl in *; [| done].
  exists k. split; [done |]. unfold doc_getPageCount in H. simpl in H.
  congruence.
Qed.

Lemma copyPages_in_range src k (pageNums : list Z) :
  Forall (λ p, 1 ≤ p ≤ Z.of_nat k) pageNums →
  copyPages (mkDoc src k) ((λ p, p - 1) <$> pageNums)
  = Some ((λ p, mkPage src (p - 1) None) <$> pageNums).
Proof.
  unfold copyPages. induction 1 as [| p l Hp Hl IH]; [done |].
  rewrite !fmap_cons. cbn [mapM]. rewrite IH. unfold copyPage at 1.
  unfold doc_getPageCount. simpl.
  rewrite bool_decide_eq_true_2 by lia. done.
Qed.

Lemma applyRotations_copied src rots (pageNums : list Z) :
  applyRotations rots pageNums ((λ p, mkPage src (p - 1) None) <$> pageNums)
  = trimmedPage src rots <$> pageNums.
Proof.
  unfold applyRotations. rewrite imap_fmap.
  rewrite <- imap_const. apply imap_ext. intros i p Hp. simpl.
  rewrite Hp. unfold trimmedPage. by case_bool_decide.
Qed.

Lemma buildPdf_in_range src k rots (pageNums : list Z) :
  Forall (λ p, 1 ≤ p ≤ Z.of_nat k) pageNums →
  buildPdf (mkDoc src k) rots pageNums = Some (trimmedPage src rots <$> pageNums).
Proof.
  intros H. unfold buildPdf. rewrite copyPages_in_range by done. simpl.
  by rewrite applyRotations_copied.
Qed.

Lemma emitParts_in_range src k rots baseName (ranges : list (list Z)) i :
  Forall (λ r, r ≠ []) ranges →
  Forall (Forall (λ p, 1 ≤ p ≤ Z.of_nat k)) ranges →
  emitParts (mkDoc src k) rots baseName i ranges
  = (imap (λ j r, mkDownload (partName baseName (i + j))
                             (trimmedPage src rots <$> r)) ranges,
     true).
Proof.
  intros Hne. revert i. induction Hne as [| r ranges Hr Hne IH]; intros i Hin.
  { done. }
  apply Forall_cons in Hin as [Hr' Hin]. cbn [emitParts].
  rewrite bool_decide_eq_false_2.
  2:{ intros E. by apply nil_length_inv in E. }
  rewrite buildPdf_in_range by done. rewrite IH by done. simpl.
  rewrite Nat.add_0_r. do 2 f_equal.
  apply imap_ext. intros j x _. simpl. by rewrite Nat.add_succ_r.
Qed.

Lemma activePageNums_in_range k deleted :
  Forall (λ p, 1 ≤ p ≤ Z.of_nat k) (activePageNums (Z.of_nat k) deleted).
Proof.
  apply Forall_forall. intros p Hp.
  by apply elem_of_activePageNums in Hp as [? _].
Qed.

Lemma partitionPages_in_range k cuts deleted :
  Forall (Forall (λ p, 1 ≤ p ≤ Z.of_nat k))
         (partitionPages (Z.of_nat k) cuts deleted).
Proof.
  apply Forall_forall. intros r Hr. apply Forall_forall. intros p Hp.
  assert (Hin : p ∈ activePageNums (Z.of_nat k) deleted).
  { rewrite <- (partitionPages_concat _ cuts). apply elem_of_concat. eauto. }
  by apply elem_of_activePageNums in Hin as [? _].
Qed.

(** [processTrim] on a loaded document with at least one cut point. *)
Lemma processTrim_split st tf :
  trimLoaded pdf_decode st tf → cutPoints st ≠ [] →
  processTrim pdf_decode st
  = (setError None st,
     imap (λ i r, mkDownload (partName (baseNameOf (tf_name tf)) i)
                             (trimmedPage (tf_file tf) (rotations st) <$> r))
          (partitionPages (tf_pageCount tf) (cutPoints st) (deletedPages st))).
Proof.
  intros Hl Hcuts. destruct (trimLoaded_load st tf Hl) as (k & Hload & Hk).
  destruct Hl as [Htf _]. unfold processTrim. rewrite Htf.
  assert (Hlen : (0 < length (cutPoints st))%nat).
  { destruct (cutPoints st); [done | simpl; lia]. }
  assert (Hmod : hasModifications st = true).
  { unfold hasModifications. rewrite (bool_decide_eq_true_2 _ Hlen).
    by rewrite orb_true_r. }
  rewrite Hmod. simpl. rewrite Hload.
  rewrite bool_decide_eq_false_2 by lia.
  fold (partitionPages (tf_pageCount tf) (cutPoints st) (deletedPages st)).
  rewrite Hk. rewrite emitParts_in_range.
  - done.
  - apply buildRanges_nonempty.
  - apply partitionPages_in_range.
Qed.

(** [processTrim] on a loaded document without cut points but with a
    deletion or a rotation. *)
Lemma processTrim_trim st tf :
  trimLoaded pdf_decode st tf → cutPoints st = [] → hasModifications st = true →
  processTrim pdf_decode st
  = (setError None st,
     [mkDownload (baseNameOf (tf_name tf) +:+ "-trimmed.pdf")
        (trimmedPage (tf_file tf) (rotations st)
           <$> activePageNums (tf_pageCount tf) (deletedPages st))]).
Proof.
  intros Hl Hcuts Hmod. destruct (trimLoaded_load st tf Hl) as (k & Hload & Hk).
  destruct Hl as [Htf _]. unfold processTrim. rewrite Htf, Hmod. simpl.
  rewrite Hload, Hcuts. simpl. rewrite Hk.
  by rewrite buildPdf_in_range by apply activePageNums_in_range.
Qed.

End TrimOutput.

(** ** Claims on [processTrim] *)

Lemma activePageNums_snoc n deleted :
  1 ≤ n → n ∉ deleted →
  activePageNums n deleted = activePageNums (n - 1) deleted ++ [n].
Proof.
  intros Hn Hd. unfold activePageNums.
  replace n with ((n - 1) + 1) at 1 by lia.
  rewrite seqZ_app by lia. rewrite filter_app. f_equal.
  replace (1 + (n - 1)) with n by lia.
  rewrite seqZ_cons by lia. rewrite seqZ_nil by lia.
  rewrite filter_cons. by case_decide.
Qed.

(** A cut point outside [1, n - 1] changes nothing. *)
Lemma partitionPages_out_of_range n cuts deleted c :
  ¬ (1 ≤ c ≤ n - 1) →
  partitionPages n cuts deleted
  = partitionPages n (filter (λ x, x ≠ c) cuts) deleted.
Proof.
  intros Hc. unfold partitionPages.
  destruct (decide (c ∈ activePageNums n deleted)) as [Hin | Hout].
  - apply elem_of_activePageNums in Hin as [Hr Hd].
    assert (c = n) as -> by lia.
    rewrite activePageNums_snoc by (done || lia).
    apply buildRanges_ext_snoc. intros q Hq.
    apply elem_of_activePageNums in Hq as [Hq _].
    rewrite list_elem_of_filter. split; [| tauto].
    intros ?. split; [lia | done].
  - apply buildRanges_ext. intros q Hq.
    rewrite list_elem_of_filter. split; [| tauto].
    intros ?. split; [| done]. intros ->. done.
Qed.

(** Without cut points the walk pushes nothing before its end. *)
Lemma walk_no_cuts (l : list Z) : walk (sortAscending []) l = ([], l).
Proof.
  induction l as [| p l IH] using rev_ind; [done |].
  by rewrite walk_snoc, IH.
Qed.

Lemma partitionPages_no_cuts n deleted :
  activePageNums n deleted ≠ [] →
  partitionPages n [] deleted = [activePageNums n deleted].
Proof.
  intros Hne. unfold partitionPages. rewrite buildRanges_walk, walk_no_cuts.
  simpl. rewrite bool_decide_eq_true_2; [done |].
  destruct (activePageNums n deleted); [done | simpl; lia].
Qed.

Lemma hasModifications_cuts st :
  cutPoints st ≠ [] → hasModifications st = true.
Proof.
  intros H. unfold hasModifications.
  rewrite (bool_decide_eq_true_2 (0 < length (cutPoints st))%nat).
  - by rewrite orb_true_r.
  - destruct (cutPoints st); [done | simpl; lia].
Qed.

Lemma hasModifications_edits st :
  deletedPages st ≠ ∅ ∨ rotations st ≠ ∅ → hasModifications st = true.
Proof.
  unfold hasModifications. intros [H | H].
  - rewrite (bool_decide_eq_true_2 (0 < size (deletedPages st))%nat); [done |].
    assert (size (deletedPages st) ≠ 0%nat); [| lia].
    rewrite size_non_empty_iff. by intros E%leibniz_equiv.
  - rewrite (bool_decide_eq_true_2 (0 < size (rotations st))%nat).
    + by rewrite orb_true_r.
    + assert (size (rotations st) ≠ 0%nat); [| lia].
      by rewrite map_size_non_empty_iff.
Qed.

(** C3 (empty-part elision and contiguous numbering): for a loaded document
    and at least one cut point, whatever the deletions, no part of the
    partition is empty, [processTrim] writes one document per part, in
    order, none of them without pages, and the file names are
    [base-part1.pdf] to [base-partk.pdf] for the [k] documents written. *)
Theorem split_parts_contiguous (pdf_decode : File → option nat)
    (st : AppState) (tf : TrimFile) :
  trimLoaded pdf_decode st tf → cutPoints st ≠ [] →
  let parts :=
    partitionPages (tf_pageCount tf) (cutPoints st) (deletedPages st) in
  let out := (processTrim pdf_decode st).2 in
  Forall (λ r, r ≠ []) parts
  ∧ dl_pages <$> out
    = fmap (trimmedPage (tf_file tf) (rotations st)) <$> parts
  ∧ Forall (λ d, dl_pages d ≠ []) out
  ∧ dl_name <$> out
    = (λ k, baseNameOf (tf_name tf) +:+ "-part" +:+ pretty k +:+ ".pdf")
        <$> seqZ 1 (Z.of_nat (length out)).
Proof.
  intros Hl Hcuts parts out.
  assert (Hne : Forall (λ r, r ≠ []) parts) by apply buildRanges_nonempty.
  assert (Hout : out = imap (λ i r,
             mkDownload (partName (baseNameOf (tf_name tf)) i)
                        (trimmedPage (tf_file tf) (rotations st) <$> r)) parts).
  { unfold out. by rewrite (processTrim_split pdf_decode st tf). }
  split_and!.
  - done.
  - rewrite Hout, fmap_imap. simpl.
    rewrite <- imap_const. by apply imap_ext.
  - rewrite Hout. apply Forall_forall. intros d Hd.
    apply list_elem_of_lookup_1 in Hd as [i Hi].
    apply list_lookup_imap_Some in Hi as (r & Hr & ->). simpl.
    rewrite Forall_forall in Hne. intros E%fmap_nil_inv.
    by eapply Hne; [eapply list_elem_of_lookup_2 |].
  - rewrite Hout at 1. rewrite Hout, length_imap, fmap_imap.
    unfold seqZ. rewrite Nat2Z.id, <- list_fmap_compose.
    rewrite <- imap_seq_0. by apply imap_ext.
Qed.

Lemma split_parts_contiguous_witness :
  let st := mkState [] (Some (mkTrimFile fivePages "report.pdf" 5))
                    [2; 3] {[3]} ∅ None in
  dl_name <$> (processTrim sampleDecode st).2
  = ["report-part1.pdf"; "report-part2.pdf"]%string.
Proof.
  intros st.
  assert (Hl : trimLoaded sampleDecode st (mkTrimFile fivePages "report.pdf" 5))
    by (split; reflexivity).
  assert (Hc : cutPoints st ≠ []) by discriminate.
  destruct (split_parts_contiguous sampleDecode st _ Hl Hc) as (_ & _ & _ & ->).
  vm_compute. reflexivity.
Defined.

Lemma processTrim_unmodified (pdf_decode : File → option nat) (st : AppState) :
  cutPoints st = [] → deletedPages st = ∅ → rotations st = ∅ →
  processTrim pdf_decode st = (st, []).
Proof.
  intros Hc Hd Hr. unfold processTrim. destruct (trimFile st); [| done].
  replace (hasModifications st) with false; [done |].
  unfold hasModifications. rewrite Hc, Hd, Hr.
  rewrite size_empty, map_size_empty. done.
Qed.

(** C7, as the code has it (no-cut case): for a loaded document with no cut
    point and a valid set of deleted pages (at most [pageCount - 1] of
    them, so that a page survives): with at least one deleted or rotated
    page [processTrim] writes exactly one document, named
    [base-trimmed.pdf], whose pages are the whole surviving sequence in
    original order with the rotations applied; with no deleted and no
    rotated page [processTrim] returns at once and writes nothing; and the
    partition walk without cut points gives the surviving sequence as its
    single part. *)
Theorem no_cut_single_trimmed (pdf_decode : File → option nat)
    (st : AppState) (tf : TrimFile) :
  trimLoaded pdf_decode st tf → cutPoints st = [] →
  Z.of_nat (size (deletedPages st)) ≤ tf_pageCount tf - 1 →
  let active := activePageNums (tf_pageCount tf) (deletedPages st) in
  active ≠ []
  ∧ (deletedPages st ≠ ∅ ∨ rotations st ≠ ∅ →
     (processTrim pdf_decode st).2
     = [mkDownload (baseNameOf (tf_name tf) +:+ "-trimmed.pdf")
          (trimmedPage (tf_file tf) (rotations st) <$> active)])
  ∧ (deletedPages st = ∅ → rotations st = ∅ →
     processTrim pdf_decode st = (st, []))
  ∧ partitionPages (tf_pageCount tf) (cutPoints st) (deletedPages st)
    = [active].
Proof.
  intros Hl Hcuts Hvalid active.
  assert (Hne : active ≠ []) by (by apply survivor_exists).
  split_and!.
  - done.
  - intros Hmod.
    by rewrite (processTrim_trim pdf_decode st tf Hl Hcuts
                  (hasModifications_edits st Hmod)).
  - intros Hd Hr. by apply processTrim_unmodified.
  - rewrite Hcuts. by apply partitionPages_no_cuts.
Qed.

Lemma no_cut_single_trimmed_witness :
  let st := mkState [] (Some (mkTrimFile threePages "a.pdf" 3))
                    [] {[2]} {[3 := 90]} None in
  (processTrim sampleDecode st).2
  = [mkDownload "a-trimmed.pdf"
       [mkPage threePages 0 None; mkPage threePages 2 (Some 90)]].
Proof.
  intros st.
  assert (Hl : trimLoaded sampleDecode st (mkTrimFile threePages "a.pdf" 3))
    by (split; reflexivity).
  assert (Hc : cutPoints st = []) by reflexivity.
  assert (Hv : Z.of_nat (size (deletedPages st)) ≤ 3 - 1).
  { vm_compute. discriminate. }
  assert (Hm : deletedPages st ≠ ∅ ∨ rotations st ≠ ∅).
  { right. intros E. apply (f_equal (λ m : gmap Z Z, m !! 3)) in E.
    vm_compute in E. discriminate. }
  destruct (no_cut_single_trimmed sampleDecode st _ Hl Hc Hv) as (_ & H & _).
  rewrite (H Hm). vm_compute. reflexivity.
Defined.

(** C7 as stated fails: a freshly loaded document has valid (empty)
    deletions and rotations and no cut point, and [processTrim] writes
    nothing for it. *)
Lemma no_cut_unmodified_counterexample :
  let st := addTrimFile sampleDecode sampleRenders [fivePages] initialState in
  trimLoaded sampleDecode st (mkTrimFile fivePages "report.pdf" 5)
  ∧ cutPoints st = [] ∧ deletedPages st = ∅ ∧ rotations st = ∅
  ∧ (processTrim sampleDecode st).2 = [].
Proof. vm_compute. repeat split. Qed.

(** C5, as the code has it: the partition step validates nothing and
    cannot fail.  A cut point outside [1, pageCount - 1] is ignored (the
    parts are those obtained without it), an empty surviving sequence gives
    no part, and [processTrim] on a loaded document reports no error
    whatever the cut points and deletions are. *)
Theorem partition_without_validation (pdf_decode : File → option nat)
    (st : AppState) (tf : TrimFile) :
  trimLoaded pdf_decode st tf → hasModifications st = true →
  let n := tf_pageCount tf in
  error (processTrim pdf_decode st).1 = None
  ∧ (∀ c, ¬ (1 ≤ c ≤ n - 1) →
       partitionPages n (cutPoints st) (deletedPages st)
       = partitionPages n (filter (λ x, x ≠ c) (cutPoints st)) (deletedPages st))
  ∧ (activePageNums n (deletedPages st) = [] →
       partitionPages n (cutPoints st) (deletedPages st) = []).
Proof.
  intros Hl Hmod n. split_and!.
  - destruct (decide (cutPoints st = [])) as [Hc | Hc].
    + by rewrite (processTrim_trim pdf_decode st tf).
    + by rewrite (processTrim_split pdf_decode st tf).
  - intros c Hc. by apply partitionPages_out_of_range.
  - intros Hempty. unfold partitionPages. by rewrite Hempty.
Qed.

Lemma partition_without_validation_witness :
  let st := mkState [] (Some (mkTrimFile threePages "a.pdf" 3))
                    [7] ∅ ∅ None in
  error (processTrim sampleDecode st).1 = None
  ∧ partitionPages 3 [7] ∅ = partitionPages 3 (filter (λ x, x ≠ 7) [7]) ∅.
Proof.
  intros st.
  assert (Hl : trimLoaded sampleDecode st (mkTrimFile threePages "a.pdf" 3))
    by (split; reflexivity).
  assert (Hm : hasModifications st = true) by reflexivity.
  destruct (partition_without_validation sampleDecode st _ Hl Hm)
    as (He & Hcut & _).
  split; [exact He |]. apply (Hcut 7). simpl. lia.
Defined.

(** C5 as stated fails: with the cut point 7 on a document of 3 pages
    [processTrim] reports no error and writes the whole document as part 1;
    with every page deleted it reports no error and writes nothing. *)
Lemma partition_no_validation_counterexample :
  let tf := mkTrimFile threePages "a.pdf" 3 in
  let st := mkState [] (Some tf) [7] ∅ ∅ None in
  let st' := mkState [] (Some tf) [1] {[1; 2; 3]} ∅ None in
  ¬ (1 ≤ 7 ≤ tf_pageCount tf - 1)
  ∧ error (processTrim sampleDecode st).1 = None
  ∧ (processTrim sampleDecode st).2
    = [mkDownload "a-part1.pdf"
         [mkPage threePages 0 None; mkPage threePages 1 None;
          mkPage threePages 2 None]]
  ∧ activePageNums (tf_pageCount tf) (deletedPages st') = []
  ∧ error (processTrim sampleDecode st').1 = None
  ∧ (processTrim sampleDecode st').2 = [].
Proof.
  split; [simpl; lia |]. vm_compute. repeat split.
Qed.

(** ** Deleting and rotating pages *)

Section Edits.
Implicit Types (st : AppState) (m : gmap Z Z) (p : Z).

Lemma toggleDeletePage_size st tf p :
  trimFile st = Some tf →
  Z.of_nat (size (deletedPages st)) ≤ tf_pageCount tf - 1 →
  Z.of_nat (size (deletedPages (toggleDeletePage p st))) ≤ tf_pageCount tf - 1.
Proof.
  intros Htf Hsize. unfold toggleDeletePage. rewrite Htf.
  case_bool_decide as Hin; simpl.
  - assert (size (deletedPages st ∖ {[p]}) ≤ size (deletedPages st))%nat; [| lia].
    apply subseteq_size. intros x Hx.
    by apply elem_of_difference in Hx as [? _].
  - case_bool_decide as Hfull; simpl; [done |].
    rewrite size_union by set_solver. rewrite size_singleton. lia.
Qed.

Lemma lookup_rotateMap_eq m p : rotateMap p m !! p = nextEntry (m !! p).
Proof.
  unfold rotateMap, nextEntry, rotationOf. case_bool_decide.
  - apply lookup_delete_eq.
  - apply lookup_insert_eq.
Qed.

Lemma lookup_rotateMap_ne m p q : p ≠ q → rotateMap p m !! q = m !! q.
Proof.
  intros Hne. unfold rotateMap. case_bool_decide.
  - by apply lookup_delete_ne.
  - by apply lookup_insert_ne.
Qed.

Lemma nextEntry_valid o : entryValid o → entryValid (nextEntry o).
Proof.
  unfold entryValid.
  intros [-> | [-> | [-> | ->]]]; vm_compute; auto.
Qed.

Lemma nextEntry_four o :
  entryValid o → nextEntry (nextEntry (nextEntry (nextEntry o))) = o.
Proof. intros [-> | [-> | [-> | ->]]]; reflexivity. Qed.

Lemma rotationsValid_lookup m p : rotationsValid m → entryValid (m !! p).
Proof.
  intros Hm. unfold entryValid. destruct (m !! p) as [v |] eqn:Hv; [| auto].
  right. destruct (Hm p v Hv) as [-> | [-> | ->]]; auto.
Qed.

Lemma rotateMap_valid m p : rotationsValid m → rotationsValid (rotateMap p m).
Proof.
  intros Hm q v Hq. destruct (decide (p = q)) as [<- | Hne].
  - rewrite lookup_rotateMap_eq in Hq.
    destruct (nextEntry_valid _ (rotationsValid_lookup m p Hm))
      as [E | [E | [E | E]]]; rewrite E in Hq; simplify_eq; auto.
  - rewrite lookup_rotateMap_ne in Hq by done. by apply (Hm q).
Qed.

Lemma rotateMap_four m p :
  rotationsValid m →
  rotateMap p (rotateMap p (rotateMap p (rotateMap p m))) = m.
Proof.
  intros Hm. apply map_eq. intros q. destruct (decide (p = q)) as [<- | Hne].
  - rewrite !lookup_rotateMap_eq.
    by apply nextEntry_four, rotationsValid_lookup.
  - by rewrite !lookup_rotateMap_ne.
Qed.

Lemma rotatePages_valid ps st :
  rotationsValid (rotations st) → rotationsValid (rotations (rotatePages ps st)).
Proof.
  revert st. induction ps as [| p ps IH]; intros st Hst; [done |].
  simpl. apply IH. simpl. by apply rotateMap_valid.
Qed.

End Edits.

(** C8 (deletion floor): with a document of [n] pages loaded, when [n - 1]
    pages are deleted the delete toggle on a page that is not deleted sets
    the error "Cannot delete all pages" and leaves the deleted set as it
    was; every toggle, delete or restore, keeps the size of the deleted
    set at most [n - 1], and with such a set a page of [1..n] survives. *)
Theorem deletion_floor (st : AppState) (tf : TrimFile) (p : Z) :
  trimFile st = Some tf →
  let n := tf_pageCount tf in
  let st' := toggleDeletePage p st in
  (Z.of_nat (size (deletedPages st)) = n - 1 → p ∉ deletedPages st →
     error st' = Some "Cannot delete all pages"%string
     ∧ deletedPages st' = deletedPages st)
  ∧ (Z.of_nat (size (deletedPages st)) ≤ n - 1 →
       Z.of_nat (size (deletedPages st')) ≤ n - 1
       ∧ activePageNums n (deletedPages st') ≠ []).
Proof.
  intros Htf n st'. split.
  - intros Hsize Hp. unfold st', toggleDeletePage. rewrite Htf.
    rewrite bool_decide_eq_false_2 by done.
    rewrite bool_decide_eq_true_2 by (fold n; lia). done.
  - intros Hsize.
    pose proof (toggleDeletePage_size st tf p Htf Hsize) as H'.
    split; [done |]. by apply survivor_exists.
Qed.

Lemma deletion_floor_witness :
  let st := mkState [] (Some (mkTrimFile threePages "a.pdf" 3))
                    [] {[1; 3]} ∅ None in
  error (toggleDeletePage 2 st) = Some "Cannot delete all pages"%string
  ∧ deletedPages (toggleDeletePage 2 st) = deletedPages st.
Proof.
  intros st.
  apply (deletion_floor st (mkTrimFile threePages "a.pdf" 3) 2).
  - reflexivity.
  - vm_compute. reflexivity.
  - simpl. apply not_elem_of_union.
    split; apply not_elem_of_singleton; discriminate.
Defined.

(** C9, as the code has it (rotation composition): in a state whose stored
    rotations are all in {90, 180, 270}, four rotations of a page give the
    rotation map back unchanged, so a page without an entry is without an
    entry again; and any sequence of rotations keeps every stored value in
    {90, 180, 270} (no 0 is ever stored), in particular from the empty
    map. *)
Theorem rotation_composition (st : AppState) (p : Z) :
  rotationsValid (rotations st) →
  rotations (rotatePage p (rotatePage p (rotatePage p (rotatePage p st))))
  = rotations st
  ∧ (rotations st !! p = None →
     rotations (rotatePage p (rotatePage p (rotatePage p (rotatePage p st))))
       !! p = None)
  ∧ (∀ ps, rotationsValid (rotations (rotatePages ps st)))
  ∧ (∀ ps, rotationsValid (rotations (rotatePages ps initialState))).
Proof.
  intros Hst.
  assert (H4 : rotations (rotatePage p (rotatePage p (rotatePage p (rotatePage p st))))
               = rotations st) by (simpl; by apply rotateMap_four).
  split_and!.
  - done.
  - intros Hp. by rewrite H4.
  - intros ps. by apply rotatePages_valid.
  - intros ps. apply rotatePages_valid. apply map_Forall_empty.
Qed.

Lemma rotation_composition_witness :
  let st := rotatePage 2 (rotatePage 1 initialState) in
  rotations (rotatePage 1 (rotatePage 1 (rotatePage 1 (rotatePage 1 st))))
  = rotations st.
Proof.
  intros st. apply (rotation_composition st 1).
  apply (rotatePages_valid [1; 2] initialState). apply map_Forall_empty.
Defined.

(** C9 as stated fails: after one rotation of page 1 its entry is 90, and
    four more rotations bring the entry back to 90, not to absent. *)
Lemma rotation_four_times_counterexample :
  let st := rotatePage 1 initialState in
  rotations st !! 1 = Some 90
  ∧ rotations (rotatePage 1 (rotatePage 1 (rotatePage 1 (rotatePage 1 st))))
      !! 1 = Some 90.
Proof. vm_compute. split; reflexivity. Qed.

(** ** Merge mode *)

Section Merge.
Variable pdf_decode : File → option nat.
Implicit Types (st : AppState) (f : PDFFile) (fs : list PDFFile).

Lemma copyPages_indices src k (indices : list Z) :
  Forall (λ i, 0 ≤ i < Z.of_nat k) indices →
  copyPages (mkDoc src k) indices = Some ((λ i, mkPage src i None) <$> indices).
Proof.
  unfold copyPages. induction 1 as [| i l Hi Hl IH]; [done |].
  rewrite fmap_cons. cbn [mapM]. rewrite IH. unfold copyPage at 1.
  unfold doc_getPageCount. simpl.
  rewrite bool_decide_eq_true_2 by lia. done.
Qed.

Lemma copyPages_all src k :
  copyPages (mkDoc src k) (getPageIndices (mkDoc src k))
  = Some ((λ i, mkPage src i None) <$> seqZ 0 (Z.of_nat k)).
Proof.
  unfold getPageIndices, doc_getPageCount. simpl.
  apply copyPages_indices, Forall_forall. intros i Hi.
  apply elem_of_seqZ in Hi. lia.
Qed.

Lemma getPageCount_Some (file : File) n :
  getPageCount pdf_decode file = Some n →
  ∃ k, PDFDocument_load pdf_decode file = Some (mkDoc file k)
       ∧ n = Z.of_nat k.
Proof.
  unfold getPageCount, PDFDocument_load.
  destruct (pdf_decode file) as [k |]; simpl; [| done].
  intros [= <-]. by exists k.
Qed.

Lemma getPageCount_None (file : File) :
  getPageCount pdf_decode file = None →
  PDFDocument_load pdf_decode file = None.
Proof.
  unfold getPageCount. by destruct (PDFDocument_load pdf_decode file).
Qed.

Lemma mergeLoop_known fs : ∀ mergedPdf,
  queueConsistent pdf_decode fs → Forall (λ f, pf_pageCount f ≠ None) fs →
  mergeLoop pdf_decode mergedPdf fs
  = Some (mergedPdf ++ flat_map pagesOfSource fs).
Proof.
  induction fs as [| f fs IH]; intros mergedPdf Hc Hk.
  { simpl. by rewrite app_nil_r. }
  apply Forall_cons in Hc as [Hf Hc]. apply Forall_cons in Hk as [Hn Hk].
  destruct (pf_pageCount f) as [n |] eqn:En; [| done].
  destruct (getPageCount_Some (pf_file f) n (eq_sym Hf)) as (k & Hload & ->).
  cbn [mergeLoop]. rewrite Hload. simpl. rewrite copyPages_all. simpl.
  rewrite IH by done. unfold pagesOfSource at 2. rewrite En. simpl.
  by rewrite app_assoc.
Qed.

Lemma mergeLoop_unknown fs : ∀ mergedPdf,
  queueConsistent pdf_decode fs → Exists (λ f, pf_pageCount f = None) fs →
  mergeLoop pdf_decode mergedPdf fs = None.
Proof.
  induction fs as [| f fs IH]; intros mergedPdf Hc He.
  { by apply Exists_nil in He. }
  apply Forall_cons in Hc as [Hf Hc]. cbn [mergeLoop].
  destruct (pf_pageCount f) as [n |] eqn:En.
  - destruct (getPageCount_Some (pf_file f) n (eq_sym Hf)) as (k & Hload & ->).
    rewrite Hload. simpl. rewrite copyPages_all. simpl.
    apply IH; [done |]. apply Exists_cons in He as [He | He]; [| done].
    congruence.
  - by rewrite (getPageCount_None (pf_file f) (eq_sym Hf)).
Qed.

Lemma pageOrigin_pagesOfSource fs :
  pageOrigin <$> flat_map pagesOfSource fs = plan_merge fs.
Proof.
  unfold plan_merge. induction fs as [| f fs IH]; [done |].
  simpl. rewrite fmap_app, IH. f_equal.
  unfold pagesOfSource. rewrite <- list_fmap_compose.
  rewrite <- (fmap_add_seqZ 1 0), <- list_fmap_compose.
  apply list_fmap_ext. intros _ i _. unfold pageOrigin. simpl.
  f_equal. lia.
Qed.

Lemma totalPages_from (fs : list PDFFile) (a : Z) :
  foldl (λ sum f, sum + default 0 (pf_pageCount f)) a fs = a + totalPages fs.
Proof.
  unfold totalPages. revert a. induction fs as [| f fs IH]; intros a.
  { simpl. lia. }
  simpl. rewrite (IH (a + _)), (IH (0 + _)). lia.
Qed.

Lemma length_pagesOfSource fs :
  Forall (λ f, 0 ≤ default 0 (pf_pageCount f)) fs →
  Z.of_nat (length (flat_map pagesOfSource fs)) = totalPages fs.
Proof.
  induction 1 as [| f fs Hf Hfs IH]; [done |].
  simpl. rewrite length_app, Nat2Z.inj_add, IH.
  unfold totalPages at 2. simpl. rewrite totalPages_from.
  unfold pagesOfSource. rewrite length_fmap, length_seqZ. lia.
Qed.

Lemma consistent_nonneg fs :
  queueConsistent pdf_decode fs → Forall (λ f, 0 ≤ default 0 (pf_pageCount f)) fs.
Proof.
  intros Hc. eapply Forall_impl; [exact Hc |].
  intros f Hf. simpl in Hf. rewrite Hf. unfold getPageCount.
  destruct (PDFDocument_load pdf_decode (pf_file f)); simpl; [| done].
  unfold doc_getPageCount. lia.
Qed.

End Merge.

Section MergeQueue.
Variable pdf_decode : File → option nat.
Implicit Types (st : AppState) (new_id : nat → string).

Lemma addFiles_files new_id (newFiles : list File) st :
  (length (files st) ≤ 5)%nat →
  files (addFiles pdf_decode new_id newFiles st)
  = files st
    ++ imap (queued pdf_decode new_id)
            (take (5 - length (files st))
                  (filter (λ f, isPdf f = true) newFiles)).
Proof.
  intros Hm. unfold addFiles. simpl.
  set (pdfFiles := filter (λ f, isPdf f = true) newFiles).
  case_bool_decide as Hk.
  { apply nil_length_inv in Hk. rewrite Hk, take_nil. simpl.
    by rewrite app_nil_r. }
  unfold slice0, MAX_FILES.
  rewrite (bool_decide_eq_false_2 (5 - Z.of_nat (length (files st)) < 0))
    by lia.
  replace (Z.to_nat (5 - Z.of_nat (length (files st))))
    with (5 - length (files st))%nat by lia.
  by case_bool_decide.
Qed.

Lemma addFiles_error new_id (newFiles : list File) st :
  let pdfFiles := filter (λ f, isPdf f = true) newFiles in
  let availableSlots := 5 - Z.of_nat (length (files st)) in
  error (addFiles pdf_decode new_id newFiles st)
  = if bool_decide (length pdfFiles = 0%nat) then
      Some "Only PDF files are accepted"%string
    else if bool_decide (availableSlots < Z.of_nat (length pdfFiles)) then
      Some ("Only " +:+ pretty availableSlots +:+ " more file"
            +:+ (if bool_decide (availableSlots = 1) then "" else "s")
            +:+ " can be added")%string
    else None.
Proof.
  intros pdfFiles availableSlots. unfold addFiles. fold pdfFiles. simpl.
  case_bool_decide; [done |]. unfold MAX_FILES. fold availableSlots.
  by case_bool_decide.
Qed.


End MergeQueue.

Lemma positive_known (fs : list PDFFile) :
  Forall (λ f, ∃ n, pf_pageCount f = Some n ∧ 1 ≤ n) fs →
  Forall (λ f, pf_pageCount f ≠ None) fs.
Proof.
  intros Hpos. eapply Forall_impl; [exact Hpos |].
  intros f (n & Hn & _). by rewrite Hn.
Qed.

Lemma positive_nonempty (fs : list PDFFile) :
  fs ≠ [] → Forall (λ f, ∃ n, pf_pageCount f = Some n ∧ 1 ≤ n) fs →
  flat_map pagesOfSource fs ≠ [].
Proof.
  intros Hne Hpos. destruct Hpos as [| f fs (n & Hn & Hge) _]; [done |].
  simpl. unfold pagesOfSource at 1. rewrite Hn. simpl.
  rewrite seqZ_cons by lia. done.
Qed.

(** C4 (merge is concatenation): for a queue of at least two sources whose
    page counts are known (as [addFiles] stored them) and at least one, as
    the data model has them, [mergePDFs] writes one document whose pages
    are, for each source in the order of the queue, the copies of its pages
    1 to [pageCount] in increasing order, nothing removed and nothing
    moved, so its length is the sum of the page counts.  (The document has
    a page, so [save()] adds none.) *)
Theorem merge_is_concatenation (pdf_decode : File → option nat) (now : Z)
    (st : AppState) :
  (2 ≤ length (files st))%nat →
  queueConsistent pdf_decode (files st) →
  Forall (λ f, ∃ n, pf_pageCount f = Some n ∧ 1 ≤ n) (files st) →
  ∃ pages,
    mergePDFs pdf_decode now st
    = (setError None st,
       [mkDownload ("merged-" +:+ pretty now +:+ ".pdf") pages])
    ∧ pages ≠ []
    ∧ pageOrigin <$> pages = plan_merge (files st)
    ∧ Forall (λ pg, page_rotation pg = None) pages
    ∧ Z.of_nat (length pages) = totalPages (files st).
Proof.
  intros Hlen Hc Hpos. pose proof (positive_known _ Hpos) as Hk.
  exists (flat_map pagesOfSource (files st)). split_and!.
  - unfold mergePDFs. rewrite bool_decide_eq_false_2 by lia. simpl.
    by rewrite (mergeLoop_known pdf_decode (files st) [] Hc Hk).
  - apply positive_nonempty; [| done]. intros E. rewrite E in Hlen.
    simpl in Hlen. lia.
  - apply pageOrigin_pagesOfSource.
  - apply Forall_forall. intros pg Hpg. apply list_elem_of_In in Hpg.
    apply in_flat_map in Hpg as (f & _ & Hpg). apply list_elem_of_In in Hpg.
    unfold pagesOfSource in Hpg.
    by apply list_elem_of_fmap in Hpg as (i & -> & _).
  - apply length_pagesOfSource. by eapply consistent_nonneg.
Qed.

Lemma merge_is_concatenation_witness :
  let st := addFiles sampleDecode sampleId [threePages; twoPages] initialState in
  ∃ pages,
    mergePDFs sampleDecode 17 st
    = (setError None st, [mkDownload "merged-17.pdf" pages])
    ∧ pageOrigin <$> pages
      = [(threePages, 1); (threePages, 2); (threePages, 3);
         (twoPages, 1); (twoPages, 2)]
    ∧ Z.of_nat (length pages) = 5.
Proof.
  intros st.
  assert (H1 : (2 ≤ length (files st))%nat) by (vm_compute; lia).
  assert (H2 : queueConsistent sampleDecode (files st))
    by (repeat constructor).
  assert (H3 : Forall (λ f, ∃ n, pf_pageCount f = Some n ∧ 1 ≤ n) (files st)).
  { repeat constructor.
    - exists 3. split; [reflexivity | lia].
    - exists 2. split; [reflexivity | lia]. }
  destruct (merge_is_concatenation sampleDecode 17 st H1 H2 H3)
    as (pages & Hm & _ & Ho & _ & Hl).
  exists pages. split_and!.
  - exact Hm.
  - rewrite Ho. vm_compute. reflexivity.
  - rewrite Hl. vm_compute. reflexivity.
Defined.




(** C10 (over-limit truncation in [addFiles]): with [m < 5] files loaded
    and [k] offered files that pass the PDF test, the queue after
    [addFiles] is the old queue followed by entries for the first
    [min k (5 - m)] of them in the offered order; the other offered files
    appear nowhere, and when [k > 5 - m] the only trace of them is the
    error message. *)
Theorem addFiles_truncates (pdf_decode : File → option nat)
    (new_id : nat → string) (offered : list File) (st : AppState) :
  let m := length (files st) in
  let valid := filter (λ f, isPdf f = true) offered in
  let k := length valid in
  let st' := addFiles pdf_decode new_id offered st in
  (m < 5)%nat →
  pf_file <$> files st'
  = (pf_file <$> files st) ++ take (k `min` (5 - m)) valid
  ∧ take m (files st') = files st
  ∧ length (files st') = (m + k `min` (5 - m))%nat
  ∧ ((5 - m < k)%nat →
     error st'
     = Some ("Only " +:+ pretty (5 - Z.of_nat m) +:+ " more file"
             +:+ (if bool_decide (5 - Z.of_nat m = 1) then "" else "s")
             +:+ " can be added")%string)
  ∧ ((0 < k ≤ 5 - m)%nat → error st' = None).
Proof.
  intros m valid k st' Hm.
  assert (Htake : take (k `min` (5 - m)) valid = take (5 - m) valid).
  { destruct (decide (5 - m ≤ k)%nat) as [Hle | Hgt].
    - by rewrite Nat.min_r.
    - rewrite Nat.min_l by lia. unfold k.
      rewrite firstn_all. symmetry. apply take_ge. fold k. lia. }
  assert (Hfiles : files st' = files st ++ imap (queued pdf_decode new_id)
                                            (take (5 - m) valid)).
  { unfold st'. rewrite addFiles_files by (fold m; lia). done. }
  split_and!.
  - rewrite Hfiles, fmap_app, Htake. f_equal.
    rewrite fmap_imap. rewrite <- (list_fmap_id (take (5 - m) valid)) at 2.
    rewrite <- imap_const. by apply imap_ext.
  - rewrite Hfiles. unfold m. by rewrite take_app_length.
  - rewrite Hfiles, length_app, length_imap, length_take. fold m k. lia.
  - intros Hover. unfold st'. rewrite addFiles_error. fold valid k m.
    rewrite (bool_decide_eq_false_2 (k = 0%nat)) by lia.
    rewrite (bool_decide_eq_true_2 (5 - Z.of_nat m < Z.of_nat k)) by lia.
    done.
  - intros Hfit. unfold st'. rewrite addFiles_error. fold valid k m.
    rewrite (bool_decide_eq_false_2 (k = 0%nat)) by lia.
    rewrite (bool_decide_eq_false_2 (5 - Z.of_nat m < Z.of_nat k)) by lia.
    done.
Qed.

Lemma addFiles_truncates_witness :
  let st := addFiles sampleDecode sampleId
                     [threePages; twoPages; unreadable] initialState in
  let st' := addFiles sampleDecode sampleId
                      [fivePages; mkFile "notes.txt" "text/plain" [1%N];
                       alsoUnreadable; threePages] st in
  pf_file <$> files st'
  = [threePages; twoPages; unreadable; fivePages; alsoUnreadable]
  ∧ error st' = Some "Only 2 more files can be added"%string.
Proof.
  intros st st'.
  assert (Hm : (length (files st) < 5)%nat) by (vm_compute; lia).
  destruct (addFiles_truncates sampleDecode sampleId
              [fivePages; mkFile "notes.txt" "text/plain" [1%N];
               alsoUnreadable; threePages] st Hm)
    as (Hfiles & _ & _ & Herr & _).
  split.
  - etrans; [exact Hfiles |]. vm_compute. reflexivity.
  - etrans; [apply Herr; vm_compute; lia |]. vm_compute. reflexivity.
Defined.

(** * Further properties of the page *)

(** ** Cut points *)

Section CutPoints.
Implicit Types (st : AppState) (c : Z) (l : list Z).

Lemma increasing_NoDup l : StronglySorted Z.lt l → NoDup l.
Proof.
  induction 1 as [| x l Hl IH Hx]; constructor; [| done].
  intros Hin. rewrite Forall_forall in Hx. specialize (Hx x Hin). lia.
Qed.

Lemma increasing_le l : StronglySorted Z.lt l → StronglySorted Z.le l.
Proof.
  induction 1 as [| x l Hl IH Hx]; constructor; [done |].
  eapply Forall_impl; [exact Hx |]. intros y Hy. simpl in Hy. lia.
Qed.

Lemma le_NoDup_increasing l :
  StronglySorted Z.le l → NoDup l → StronglySorted Z.lt l.
Proof.
  induction 1 as [| x l Hl IH Hx]; intros Hnd; [constructor |].
  apply NoDup_cons in Hnd as [Hx' Hnd]. constructor; [by apply IH |].
  rewrite Forall_forall in Hx. apply Forall_forall. intros y Hy.
  assert (x ≠ y) by (intros ->; done). specialize (Hx y Hy). lia.
Qed.

Lemma sortAscending_increasing l :
  NoDup l → StronglySorted Z.lt (sortAscending l).
Proof.
  intros Hnd. apply le_NoDup_increasing.
  - apply StronglySorted_merge_sort; apply _.
  - unfold sortAscending. by rewrite merge_sort_Permutation.
Qed.

(** A strictly increasing list is determined by its elements. *)
Lemma increasing_unique l k :
  StronglySorted Z.lt l → StronglySorted Z.lt k → l ≡ₚ k → l = k.
Proof.
  intros Hl Hk. apply (StronglySorted_unique_strong Z.lt); [| done | done].
  intros. lia.
Qed.

Lemma sortAscending_id l : StronglySorted Z.lt l → sortAscending l = l.
Proof.
  intros Hl. apply increasing_unique; [| done |].
  - apply sortAscending_increasing. by apply increasing_NoDup.
  - apply merge_sort_Permutation.
Qed.

Lemma filter_ne_notin l c : c ∉ l → filter (λ p, p ≠ c) l = l.
Proof.
  induction l as [| x l IH]; intros Hc; [done |].
  apply not_elem_of_cons in Hc as [Hne Hc].
  rewrite filter_cons, decide_True by done. by rewrite IH.
Qed.

Lemma remove_then_add_Permutation l c :
  NoDup l → c ∈ l → filter (λ p, p ≠ c) l ++ [c] ≡ₚ l.
Proof.
  induction l as [| x l IH]; intros Hnd Hc; [by apply elem_of_nil in Hc |].
  apply NoDup_cons in Hnd as [Hx Hnd]. rewrite filter_cons.
  destruct (decide (x = c)) as [-> | Hne].
  - rewrite decide_False by (intros H; by apply H).
    rewrite filter_ne_notin by done. by rewrite Permutation_app_comm.
  - rewrite decide_True by done. simpl. f_equiv. apply IH; [done |].
    apply elem_of_cons in Hc as [-> | Hc]; done.
Qed.

Lemma length_remove l c :
  NoDup l → c ∈ l → S (length (filter (λ p, p ≠ c) l)) = length l.
Proof.
  intros Hnd Hc. rewrite <- (Permutation_length (remove_then_add_Permutation l c Hnd Hc)).
  rewrite length_app. simpl. lia.
Qed.

Lemma toggleCutPoint_others afterPage st :
  files (toggleCutPoint afterPage st) = files st
  ∧ trimFile (toggleCutPoint afterPage st) = trimFile st
  ∧ deletedPages (toggleCutPoint afterPage st) = deletedPages st
  ∧ rotations (toggleCutPoint afterPage st) = rotations st.
Proof.
  unfold toggleCutPoint. destruct (includes _ _); [done |].
  by case_bool_decide.
Qed.

Lemma toggleCutPoint_increasing afterPage st :
  StronglySorted Z.lt (cutPoints st) →
  StronglySorted Z.lt (cutPoints (toggleCutPoint afterPage st)).
Proof.
  intros Hs. unfold toggleCutPoint.
  destruct (includes _ _) eqn:Hin; simpl.
  - by apply filter_increasing.
  - case_bool_decide; simpl; [done |].
    apply sortAscending_increasing, NoDup_app. split_and!.
    + by apply increasing_NoDup.
    + intros x Hx ->%list_elem_of_singleton.
      apply includes_spec in Hx. congruence.
    + apply NoDup_singleton.
Qed.

Lemma toggleCutPoint_length afterPage st :
  (length (cutPoints st) ≤ 4)%nat →
  (length (cutPoints (toggleCutPoint afterPage st)) ≤ 4)%nat.
Proof.
  intros Hlen. unfold toggleCutPoint, MAX_CUTS.
  destruct (includes _ _); simpl.
  - etrans; [apply length_filter | done].
  - case_bool_decide; simpl; [done |]. unfold sortAscending.
    rewrite merge_sort_Permutation, length_app. simpl. lia.
Qed.

End CutPoints.

(** X1 (cut-point cap): with four cut points recorded, toggling a page that
    is not a cut point sets the error "Maximum 4 cut points (5 parts)" and
    leaves the cut points as they were; a toggle never takes the list
    beyond four cut points. *)
Theorem cut_point_cap (st : AppState) (afterPage : Z) :
  (length (cutPoints st) ≤ 4)%nat →
  (length (cutPoints (toggleCutPoint afterPage st)) ≤ 4)%nat
  ∧ (length (cutPoints st) = 4%nat → afterPage ∉ cutPoints st →
     error (toggleCutPoint afterPage st)
     = Some "Maximum 4 cut points (5 parts)"%string
     ∧ cutPoints (toggleCutPoint afterPage st) = cutPoints st).
Proof.
  intros Hlen. split; [by apply toggleCutPoint_length |].
  intros H4 Hout. unfold toggleCutPoint, includes, MAX_CUTS.
  rewrite (bool_decide_eq_false_2 (afterPage ∈ cutPoints st)) by done.
  rewrite bool_decide_eq_true_2 by lia. split; [| done].
  vm_compute. reflexivity.
Qed.

Lemma cut_point_cap_witness :
  let st := setCutPoints [1; 2; 3; 4] initialState in
  error (toggleCutPoint 7 st) = Some "Maximum 4 cut points (5 parts)"%string
  ∧ cutPoints (toggleCutPoint 7 st) = [1; 2; 3; 4].
Proof.
  intros st.
  assert (Hlen : (length (cutPoints st) ≤ 4)%nat) by (simpl; lia).
  destruct (cut_point_cap st 7 Hlen) as [_ H]. apply H; [reflexivity |].
  simpl. intros Hin. apply includes_spec in Hin. vm_compute in Hin.
  discriminate.
Defined.

(** X2 (cut points stay ordered): a toggle keeps a strictly increasing list
    of cut points strictly increasing, so without duplicates; after any
    sequence of toggles from the empty list the cut points are strictly
    increasing and at most four. *)
Theorem cut_points_increasing (st : AppState) (pages : list Z) :
  StronglySorted Z.lt (cutPoints st) →
  StronglySorted Z.lt
    (cutPoints (foldl (λ s p, toggleCutPoint p s) st pages))
  ∧ NoDup (cutPoints (foldl (λ s p, toggleCutPoint p s) st pages))
  ∧ ((length (cutPoints st) ≤ 4)%nat →
     (length (cutPoints (foldl (λ s p, toggleCutPoint p s) st pages)) ≤ 4)%nat).
Proof.
  revert st. induction pages as [| p pages IH]; intros st Hs.
  { simpl. split_and!; [done | by apply increasing_NoDup | done]. }
  simpl.
  destruct (IH (toggleCutPoint p st) (toggleCutPoint_increasing p st Hs))
    as (H1 & H2 & H3).
  split_and!; [done | done |].
  intros Hlen. by apply H3, toggleCutPoint_length.
Qed.

Lemma cut_points_increasing_witness :
  StronglySorted Z.lt
    (cutPoints (foldl (λ s p, toggleCutPoint p s) initialState [5; 2; 9; 2; 1])).
Proof.
  apply (cut_points_increasing initialState [5; 2; 9; 2; 1]). constructor.
Defined.

(** X3 (toggling a cut point twice): on a strictly increasing list of at
    most four cut points, toggling the same page twice gives the list back,
    both for a page that is a cut point (removed, then added again) and,
    below the cap, for one that is not (added, then removed). *)
Theorem toggle_cut_twice (st : AppState) (afterPage : Z) :
  StronglySorted Z.lt (cutPoints st) →
  (length (cutPoints st) ≤ 4)%nat →
  afterPage ∈ cutPoints st ∨ (length (cutPoints st) < 4)%nat →
  cutPoints (toggleCutPoint afterPage (toggleCutPoint afterPage st))
  = cutPoints st.
Proof.
  intros Hs Hlen Hcase.
  pose proof (increasing_NoDup _ Hs) as Hnd.
  destruct (decide (afterPage ∈ cutPoints st)) as [Hin | Hout].
  - assert (E1 : toggleCutPoint afterPage st
                 = setCutPoints (filter (λ p, p ≠ afterPage) (cutPoints st)) st).
    { unfold toggleCutPoint, includes. by rewrite bool_decide_eq_true_2. }
    rewrite E1. unfold toggleCutPoint, includes, MAX_CUTS. simpl.
    rewrite bool_decide_eq_false_2.
    2:{ rewrite list_elem_of_filter. intros [H _]. by apply H. }
    pose proof (length_remove _ _ Hnd Hin).
    rewrite bool_decide_eq_false_2 by lia. simpl.
    apply increasing_unique; [| done |].
    + apply sortAscending_increasing.
      by rewrite (remove_then_add_Permutation _ _ Hnd Hin).
    + unfold sortAscending. rewrite merge_sort_Permutation.
      by apply remove_then_add_Permutation.
  - destruct Hcase as [? | Hlt]; [done |].
    assert (E1 : toggleCutPoint afterPage st
                 = setCutPoints (sortAscending (cutPoints st ++ [afterPage]))
                                (setError None st)).
    { unfold toggleCutPoint, includes, MAX_CUTS.
      rewrite bool_decide_eq_false_2 by done.
      by rewrite bool_decide_eq_false_2 by lia. }
    rewrite E1. unfold toggleCutPoint, includes. simpl.
    rewrite bool_decide_eq_true_2.
    2:{ apply elem_of_sortAscending, elem_of_app. right.
        by apply list_elem_of_singleton. }
    simpl. apply increasing_unique; [| done |].
    + apply filter_increasing, sortAscending_increasing, NoDup_app.
      split_and!; [done | | apply NoDup_singleton].
      intros x Hx ->%list_elem_of_singleton. done.
    + unfold sortAscending. rewrite merge_sort_Permutation, filter_app.
      rewrite filter_ne_notin by done. rewrite filter_cons, filter_nil.
      rewrite decide_False by (intros H; by apply H). by rewrite app_nil_r.
Qed.

Lemma toggle_cut_twice_witness :
  let st := setCutPoints [2; 5] initialState in
  cutPoints (toggleCutPoint 5 (toggleCutPoint 5 st)) = [2; 5]
  ∧ cutPoints (toggleCutPoint 3 (toggleCutPoint 3 st)) = [2; 5].
Proof.
  intros st.
  assert (Hs : StronglySorted Z.lt (cutPoints st)).
  { repeat constructor. }
  assert (Hlen : (length (cutPoints st) ≤ 4)%nat) by (simpl; lia).
  split.
  - apply (toggle_cut_twice st 5 Hs Hlen). left. simpl. by do 2 constructor.
  - apply (toggle_cut_twice st 3 Hs Hlen). right. simpl. lia.
Defined.

(** ** Deleting, restoring and rotating *)

Section MoreEdits.
Implicit Types (st : AppState) (m : gmap Z Z) (p q : Z).

Lemma toggleDeletePage_others p st :
  files (toggleDeletePage p st) = files st
  ∧ trimFile (toggleDeletePage p st) = trimFile st
  ∧ cutPoints (toggleDeletePage p st) = cutPoints st
  ∧ rotations (toggleDeletePage p st) = rotations st.
Proof.
  unfold toggleDeletePage. case_bool_decide; [done |].
  destruct (trimFile st) eqn:E; [case_bool_decide |]; simpl; by rewrite ?E.
Qed.

Lemma rotatePages_rotations ps st :
  rotations (rotatePages ps st)
  = foldl (λ m q, rotateMap q m) (rotations st) ps.
Proof.
  revert st. induction ps as [| q ps IH]; intros st; [done |].
  simpl. by rewrite IH.
Qed.

Lemma rotatePages_others ps st :
  files (rotatePages ps st) = files st
  ∧ trimFile (rotatePages ps st) = trimFile st
  ∧ cutPoints (rotatePages ps st) = cutPoints st
  ∧ deletedPages (rotatePages ps st) = deletedPages st.
Proof.
  revert st. induction ps as [| q ps IH]; intros st; [done |].
  simpl. destruct (IH (rotatePage q st)) as (H1 & H2 & H3 & H4).
  by rewrite H1, H2, H3, H4.
Qed.

Lemma rotationOf_rotateMap_eq m p :
  rotationOf (rotateMap p m) p = Z.rem (rotationOf m p + 90) 360.
Proof.
  unfold rotationOf at 1. rewrite lookup_rotateMap_eq.
  unfold nextEntry, rotationOf. by case_bool_decide.
Qed.

Lemma rotationOf_rotateMap_ne m p q :
  p ≠ q → rotationOf (rotateMap p m) q = rotationOf m q.
Proof. intros. unfold rotationOf. by rewrite lookup_rotateMap_ne. Qed.

Lemma rotationOf_range m p : rotationsValid m → 0 ≤ rotationOf m p < 360.
Proof.
  intros Hm. unfold rotationOf.
  destruct (rotationsValid_lookup m p Hm) as [-> | [-> | [-> | ->]]];
    simpl; lia.
Qed.

Lemma rotateMap_comm m p q :
  rotateMap p (rotateMap q m) = rotateMap q (rotateMap p m).
Proof.
  destruct (decide (p = q)) as [-> | Hne]; [done |].
  apply map_eq. intros k.
  destruct (decide (k = p)) as [-> | Hp]; [| destruct (decide (k = q)) as [-> | Hq]].
  - rewrite lookup_rotateMap_eq, !(lookup_rotateMap_ne _ q p) by done.
    by rewrite lookup_rotateMap_eq.
  - rewrite lookup_rotateMap_eq, !(lookup_rotateMap_ne _ p q) by done.
    by rewrite lookup_rotateMap_eq.
  - by rewrite !lookup_rotateMap_ne.
Qed.

Lemma not_in_removed (d : gset Z) p : p ∉ d ∖ {[p]}.
Proof.
  rewrite elem_of_difference, elem_of_singleton. intros [_ H]. by apply H.
Qed.

Lemma restore_removed (d : gset Z) p : p ∈ d → {[p]} ∪ d ∖ {[p]} = d.
Proof.
  intros Hp. apply set_eq. intros x.
  rewrite elem_of_union, elem_of_difference, elem_of_singleton.
  destruct (decide (x = p)) as [-> | Hne]; intuition congruence.
Qed.

Lemma remove_added (d : gset Z) p : p ∉ d → ({[p]} ∪ d) ∖ {[p]} = d.
Proof.
  intros Hp. apply set_eq. intros x.
  rewrite elem_of_difference, elem_of_union, elem_of_singleton.
  destruct (decide (x = p)) as [-> | Hne]; intuition congruence.
Qed.

Lemma size_removed (d : gset Z) p :
  p ∈ d → size d = S (size (d ∖ {[p]})).
Proof.
  intros Hp. rewrite <- (restore_removed d p Hp) at 1.
  rewrite size_union by (apply disjoint_singleton_l, not_in_removed).
  by rewrite size_singleton.
Qed.

End MoreEdits.

(** X4 (delete, rotate, restore): deleting a page and restoring it, with any
    rotations pressed in between, leaves the deleted set as it was, keeps
    the cut points (a cut on the page is not removed by the deletion) and
    keeps exactly the rotations pressed; the same holds for restoring a
    deleted page and deleting it again.  The deletion must be allowed by
    the floor of one surviving page. *)
Theorem delete_rotate_restore (st : AppState) (tf : TrimFile) (p : Z)
    (presses : list Z) :
  trimFile st = Some tf →
  Z.of_nat (size (deletedPages st)) ≤ tf_pageCount tf - 1 →
  p ∈ deletedPages st
  ∨ Z.of_nat (size (deletedPages st)) < tf_pageCount tf - 1 →
  let st' := toggleDeletePage p (rotatePages presses (toggleDeletePage p st)) in
  deletedPages st' = deletedPages st
  ∧ rotations st' = rotations (rotatePages presses st)
  ∧ cutPoints st' = cutPoints st.
Proof.
  intros Htf Hsize Hcase st'.
  destruct (toggleDeletePage_others p (rotatePages presses (toggleDeletePage p st)))
    as (_ & _ & Hc & Hr).
  destruct (rotatePages_others presses (toggleDeletePage p st))
    as (_ & Ht' & Hc' & Hd').
  destruct (toggleDeletePage_others p st) as (_ & Ht & Hc0 & Hr0).
  split_and!.
  - unfold st'. unfold toggleDeletePage at 1. rewrite Hd', Ht', Ht, Htf.
    destruct (decide (p ∈ deletedPages st)) as [Hin | Hout].
    + assert (E : deletedPages (toggleDeletePage p st) = deletedPages st ∖ {[p]}).
      { unfold toggleDeletePage. by rewrite bool_decide_eq_true_2. }
      rewrite E. rewrite bool_decide_eq_false_2 by apply not_in_removed.
      pose proof (size_removed (deletedPages st) p Hin) as Hs.
      rewrite bool_decide_eq_false_2 by lia. simpl.
      by apply restore_removed.
    + destruct Hcase as [? | Hlt]; [done |].
      assert (E : deletedPages (toggleDeletePage p st) = {[p]} ∪ deletedPages st).
      { unfold toggleDeletePage. rewrite bool_decide_eq_false_2 by done.
        rewrite Htf. by rewrite bool_decide_eq_false_2 by lia. }
      rewrite E. rewrite bool_decide_eq_true_2.
      2:{ apply elem_of_union_l. by apply elem_of_singleton. }
      simpl. by apply remove_added.
  - unfold st'. rewrite Hr, !rotatePages_rotations. by rewrite Hr0.
  - unfold st'. by rewrite Hc, Hc', Hc0.
Qed.

Lemma delete_rotate_restore_witness :
  let st := mkState [] (Some (mkTrimFile fivePages "report.pdf" 5))
                    [2] {[4]} ∅ None in
  let st' := toggleDeletePage 2 (rotatePages [2; 2] (toggleDeletePage 2 st)) in
  deletedPages st' = {[4]}
  ∧ rotations st' = rotations (rotatePages [2; 2] st)
  ∧ cutPoints st' = [2].
Proof.
  intros st.
  apply (delete_rotate_restore st (mkTrimFile fivePages "report.pdf" 5) 2 [2; 2]).
  - reflexivity.
  - vm_compute. discriminate.
  - right. vm_compute. reflexivity.
Defined.

(** X5 (rotations accumulate): in a state whose stored rotations are in
    {90, 180, 270}, [k] presses of the rotate button on a page add
    [90 * k] degrees modulo 360 to the rotation read for that page and
    leave the rotation of every other page alone; presses on two pages can
    be exchanged. *)
Theorem rotation_accumulates (st : AppState) (p : Z) (k : nat) :
  rotationsValid (rotations st) →
  rotationOf (rotations (rotatePages (replicate k p) st)) p
  = (rotationOf (rotations st) p + 90 * Z.of_nat k) `mod` 360
  ∧ (∀ q, q ≠ p →
       rotationOf (rotations (rotatePages (replicate k p) st)) q
       = rotationOf (rotations st) q)
  ∧ (∀ q, rotatePage p (rotatePage q st) = rotatePage q (rotatePage p st)).
Proof.
  intros Hst. split_and!.
  - revert st Hst. induction k as [| k IH]; intros st Hst.
    + simpl. pose proof (rotationOf_range (rotations st) p Hst).
      rewrite Z.add_0_r, Z.mod_small; [done | lia].
    + simpl. rewrite IH by (by apply rotateMap_valid). simpl.
      rewrite rotationOf_rotateMap_eq.
      pose proof (rotationOf_range (rotations st) p Hst).
      rewrite Z.rem_mod_nonneg by lia.
      rewrite Zplus_mod_idemp_l. f_equal. lia.
  - intros q Hq. revert st Hst. induction k as [| k IH]; intros st Hst; [done |].
    simpl. rewrite IH by (by apply rotateMap_valid). simpl.
    by apply rotationOf_rotateMap_ne.
  - intros q. unfold rotatePage, setRotations. simpl. f_equal.
    apply rotateMap_comm.
Qed.

Lemma rotation_accumulates_witness :
  let st := rotatePage 1 initialState in
  rotationOf (rotations (rotatePages (replicate 6 1) st)) 1 = 270.
Proof.
  intros st.
  destruct (rotation_accumulates st 1 6) as [H _].
  - apply (rotatePages_valid [1] initialState). apply map_Forall_empty.
  - rewrite H. vm_compute. reflexivity.
Defined.

(** ** The counter of the proof sheet and the viewer *)

(** X6 (pages shown): for a loaded document, when every deleted page is a
    page of the document, the number shown in the header of the proof
    sheet, [pageCount - deletedPages.size], is the number of pages that
    [getActivePages] returns, which are the pages [processTrim] keeps. *)
Theorem pages_shown_are_kept (st : AppState) (tf : TrimFile) :
  trimFile st = Some tf →
  0 ≤ tf_pageCount tf →
  (∀ p, p ∈ deletedPages st → 1 ≤ p ≤ tf_pageCount tf) →
  pagesShown tf st = Z.of_nat (length (getActivePages st))
  ∧ getActivePages st = activePageNums (tf_pageCount tf) (deletedPages st).
Proof.
  intros Htf Hn Hsub. unfold getActivePages. rewrite Htf. split; [| done].
  unfold pagesShown, activePageNums.
  set (n := tf_pageCount tf). set (d := deletedPages st).
  pose proof (filter_app_complement (λ p, p ∉ d) (seqZ 1 n)) as Hperm.
  apply Permutation_length in Hperm.
  rewrite length_app, length_seqZ in Hperm.
  assert (Hdel : filter (λ x : Z, ¬ (x ∉ d)) (seqZ 1 n) ≡ₚ elements d).
  { apply NoDup_Permutation.
    - apply NoDup_filter, NoDup_seqZ.
    - apply NoDup_elements.
    - intros x. rewrite list_elem_of_filter, elem_of_seqZ, elem_of_elements.
      split; [intros [H _]; by apply dec_stable |].
      intros Hx. split; [tauto |]. specialize (Hsub x Hx). lia. }
  apply Permutation_length in Hdel. unfold size, set_size. simpl.
  lia.
Qed.

Lemma pages_shown_are_kept_witness :
  let tf := mkTrimFile fivePages "report.pdf" 5 in
  let st := mkState [] (Some tf) [] {[2; 4]} ∅ None in
  pagesShown tf st = Z.of_nat (length (getActivePages st))
  ∧ getActivePages st = [1; 3; 5].
Proof.
  intros tf st.
  destruct (pages_shown_are_kept st tf) as [H1 H2].
  - reflexivity.
  - simpl. lia.
  - simpl. intros p Hp. apply elem_of_union in Hp as [Hp | Hp];
      apply elem_of_singleton in Hp; lia.
  - split; [exact H1 |]. rewrite H2. vm_compute. reflexivity.
Defined.



(** ** Part numbers, the split preview and the files written *)

Section Parts.
Implicit Types (sortedCuts cuts active l r : list Z) (p c : Z).

Lemma walk_app sortedCuts l l' :
  walk sortedCuts (l ++ l') = foldl (rangeStep sortedCuts) (walk sortedCuts l) l'.
Proof. unfold walk. by rewrite foldl_app. Qed.

Lemma walk_length sortedCuts l :
  length (walk sortedCuts l).1 = length (filter (λ x, x ∈ sortedCuts) l).
Proof.
  induction l as [| p l IH] using rev_ind; [done |].
  rewrite walk_snoc, filter_app, length_app, <- IH. unfold rangeStep.
  rewrite filter_cons, filter_nil.
  destruct (includes sortedCuts p) eqn:Hp; simpl.
  - apply includes_spec in Hp. rewrite decide_True by done.
    by rewrite length_app.
  - rewrite decide_False; [simpl; lia |].
    intros Hin. apply includes_spec in Hin. congruence.
Qed.

(** The parts that the loop has pushed stay where they are. *)
Lemma fold_keeps_parts sortedCuts l (acc : list (list Z) * list Z) :
  ∃ more, (foldl (rangeStep sortedCuts) acc l).1 = acc.1 ++ more.
Proof.
  revert acc. induction l as [| p l IH]; intros acc.
  { exists []. by rewrite app_nil_r. }
  simpl. destruct (IH (rangeStep sortedCuts acc p)) as [more ->].
  unfold rangeStep. destruct (includes sortedCuts p); simpl.
  - exists ([acc.2 ++ [p]] ++ more). by rewrite app_assoc.
  - by exists more.
Qed.

Lemma fold_open_part sortedCuts l (rs : list (list Z)) (cur : list Z) :
  cur ≠ [] →
  ∃ r, partsOf (foldl (rangeStep sortedCuts) (rs, cur) l) !! length rs = Some r
       ∧ cur `prefix_of` r.
Proof.
  revert cur. induction l as [| p l IH]; intros cur Hcur.
  - exists cur. split; [| done]. unfold partsOf. simpl.
    rewrite bool_decide_eq_true_2 by (destruct cur; [done | simpl; lia]).
    by rewrite list_lookup_middle.
  - simpl. unfold rangeStep at 2. simpl.
    destruct (includes sortedCuts p).
    + exists (cur ++ [p]). split; [| by apply prefix_app_r].
      unfold partsOf.
      destruct (fold_keeps_parts sortedCuts l (rs ++ [cur ++ [p]], []))
        as [more ->]. simpl.
      rewrite <- !app_assoc. simpl. by rewrite list_lookup_middle.
    + destruct (IH (cur ++ [p])) as (r & Hr & Hpre).
      { by destruct cur. }
      exists r. split; [done |]. etrans; [| exact Hpre].
      by apply prefix_app_r.
Qed.

(** The page after the prefix [l] of the walk goes to the part whose index
    is the number of parts pushed while walking [l]. *)
Lemma page_part cuts l p l' :
  ∃ r, buildRanges cuts (l ++ p :: l')
         !! length (walk (sortAscending cuts) l).1 = Some r
       ∧ p ∈ r.
Proof.
  rewrite buildRanges_walk. fold (partsOf (walk (sortAscending cuts) (l ++ p :: l'))).
  rewrite walk_app. simpl. unfold rangeStep at 2.
  destruct (walk (sortAscending cuts) l) as [rs cur]. simpl.
  destruct (includes (sortAscending cuts) p).
  - exists (cur ++ [p]). split.
    + unfold partsOf.
      destruct (fold_keeps_parts (sortAscending cuts) l' (rs ++ [cur ++ [p]], []))
        as [more ->]. simpl.
      rewrite <- !app_assoc. simpl. by rewrite list_lookup_middle.
    + apply elem_of_app. right. by apply list_elem_of_singleton.
  - destruct (fold_open_part (sortAscending cuts) l' rs (cur ++ [p]))
      as (r & Hr & [k ->]).
    { by destruct cur. }
    exists ((cur ++ [p]) ++ k). split; [done |].
    apply elem_of_app. left. apply elem_of_app. right.
    by apply list_elem_of_singleton.
Qed.

Lemma getPartForPage_from (cuts : list Z) p (a : Z) :
  foldl (λ part cut, if bool_decide (p > cut) then part + 1 else part) a cuts
  = a + Z.of_nat (length (filter (λ c, c < p) cuts)).
Proof.
  revert a. induction cuts as [| c cuts IH]; intros a; [simpl; lia |].
  simpl. rewrite IH, filter_cons. case_bool_decide.
  - rewrite decide_True by lia. simpl. lia.
  - rewrite decide_False by lia. lia.
Qed.

Lemma getPartForPage_count cuts p :
  getPartForPage cuts p = 1 + Z.of_nat (length (filter (λ c, c < p) cuts)).
Proof. apply getPartForPage_from. Qed.

Lemma increasing_split l1 p l2 :
  StronglySorted Z.lt (l1 ++ p :: l2) →
  Forall (λ x, x < p) l1 ∧ Forall (λ x, p < x) l2.
Proof.
  intros Hs. split.
  - apply Forall_forall. intros x Hx.
    apply (StronglySorted_app_1_elem_of _ _ _ _ _ Hs); [done | by left].
  - apply StronglySorted_app_1_r in Hs. by inv Hs.
Qed.

(** The cut points met before page [p] are the cut points below [p]. *)
Lemma cuts_before cuts l1 p l2 :
  StronglySorted Z.lt (l1 ++ p :: l2) → NoDup cuts →
  (∀ c, c ∈ cuts → c ∈ l1 ++ p :: l2) →
  length (filter (λ x, x ∈ sortAscending cuts) l1)
  = length (filter (λ c, c < p) cuts).
Proof.
  intros Hs Hnd Hsub. destruct (increasing_split l1 p l2 Hs) as [H1 H2].
  rewrite Forall_forall in H1, H2.
  apply Permutation_length, NoDup_Permutation.
  - apply NoDup_filter. apply increasing_NoDup in Hs.
    by apply NoDup_app in Hs as [? _].
  - by apply NoDup_filter.
  - intros x. rewrite !list_elem_of_filter, elem_of_sortAscending. split.
    + intros [Hc Hx]. split; [by apply H1 | done].
    + intros [Hlt Hc]. split; [done |].
      specialize (Hsub x Hc). apply elem_of_app in Hsub as [? | Hsub]; [done |].
      apply elem_of_cons in Hsub as [-> | Hsub]; [lia |].
      specialize (H2 x Hsub). lia.
Qed.

Lemma cuts_met_le cuts active :
  NoDup active →
  (length (filter (λ x, x ∈ sortAscending cuts) active) ≤ length cuts)%nat.
Proof.
  intros Hnd. apply submseteq_length, NoDup_submseteq.
  - by apply NoDup_filter.
  - intros x Hx. apply list_elem_of_filter in Hx as [Hx _].
    by apply elem_of_sortAscending.
Qed.

Lemma cuts_met_all cuts active :
  NoDup active → NoDup cuts → (∀ c, c ∈ cuts → c ∈ active) →
  length (filter (λ x, x ∈ sortAscending cuts) active) = length cuts.
Proof.
  intros Ha Hc Hsub. apply Permutation_length, NoDup_Permutation.
  - by apply NoDup_filter.
  - done.
  - intros x. rewrite list_elem_of_filter, elem_of_sortAscending.
    split; [tauto | auto].
Qed.

Lemma length_buildRanges cuts active :
  length (buildRanges cuts active)
  = (length (filter (λ x, x ∈ sortAscending cuts) active)
     + (if bool_decide (0 < length (walk (sortAscending cuts) active).2)%nat
        then 1 else 0))%nat.
Proof.
  rewrite buildRanges_walk, length_app, walk_length.
  by case_bool_decide.
Qed.

Lemma walk_open_last cuts l p :
  p ∉ cuts → (walk (sortAscending cuts) (l ++ [p])).2 ≠ [].
Proof.
  intros Hp. rewrite walk_snoc. unfold rangeStep.
  rewrite includes_sortAscending. unfold includes.
  rewrite bool_decide_eq_false_2 by done. simpl.
  by destruct (walk (sortAscending cuts) l).2.
Qed.

Lemma concat_fmap {A B} (f : A → B) (ls : list (list A)) :
  concat (fmap (M := list) f <$> ls) = f <$> concat ls.
Proof.
  induction ls as [| l ls IH]; [done |].
  by rewrite fmap_cons, !concat_cons, fmap_app, IH.
Qed.

(** The loop of the split preview pushes the labels of the parts. *)
Lemma preview_walk sortedCuts l :
  foldl (previewStep sortedCuts) ([], []) l
  = (rangeLabel <$> (walk sortedCuts l).1, (walk sortedCuts l).2).
Proof.
  induction l as [| p l IH] using rev_ind; [done |].
  rewrite foldl_snoc, IH, walk_snoc. unfold previewStep, rangeStep. simpl.
  destruct (includes sortedCuts p); [| done].
  rewrite bool_decide_eq_true_2 by (rewrite length_app; simpl; lia).
  simpl. by rewrite fmap_app.
Qed.

Lemma previewBadges_ranges n cuts (deleted : gset Z) :
  previewBadges n cuts deleted
  = imap (λ idx range, "PART " +:+ pretty (Z.of_nat idx + 1) +:+ ": " +:+ range)
         (rangeLabel <$> partitionPages n cuts deleted).
Proof.
  unfold previewBadges, partitionPages. cbv zeta.
  rewrite preview_walk, buildRanges_walk. cbn [fst snd]. f_equal.
  rewrite fmap_app. case_bool_decide; simpl; by rewrite ?app_nil_r.
Qed.

End Parts.

(** X8 (part number of a page): for a loaded document with cut points, all
    distinct and on surviving pages, the part number that [getPartForPage]
    shows for a surviving page is the number of the file the page is
    written to: the download at that position is named
    [base-part<number>.pdf] and holds the page. *)
Theorem part_number_is_file_number (pdf_decode : File → option nat)
    (st : AppState) (tf : TrimFile) (p : Z) :
  trimLoaded pdf_decode st tf → cutPoints st ≠ [] →
  NoDup (cutPoints st) →
  (∀ c, c ∈ cutPoints st → (1 ≤ c ≤ tf_pageCount tf) ∧ c ∉ deletedPages st) →
  1 ≤ p ≤ tf_pageCount tf → p ∉ deletedPages st →
  let partNum := getPartForPage (cutPoints st) p in
  ∃ d, (processTrim pdf_decode st).2 !! Z.to_nat (partNum - 1) = Some d
       ∧ dl_name d
         = baseNameOf (tf_name tf) +:+ "-part" +:+ pretty partNum +:+ ".pdf"
       ∧ trimmedPage (tf_file tf) (rotations st) p ∈ dl_pages d.
Proof.
  intros Hl Hne Hnd Hcuts Hp Hd partNum.
  set (n := tf_pageCount tf). set (del := deletedPages st).
  assert (Hin : p ∈ activePageNums n del) by (by apply elem_of_activePageNums).
  apply list_elem_of_split in Hin as (l1 & l2 & Hsplit).
  pose proof (activePageNums_increasing n del) as Hs. rewrite Hsplit in Hs.
  assert (Hidx : Z.to_nat (partNum - 1)
                 = length (walk (sortAscending (cutPoints st)) l1).1).
  { unfold partNum. rewrite getPartForPage_count, walk_length.
    rewrite (cuts_before (cutPoints st) l1 p l2 Hs Hnd).
    { lia. }
    intros c Hc. rewrite <- Hsplit. apply elem_of_activePageNums.
    by apply Hcuts. }
  destruct (page_part (cutPoints st) l1 p l2) as (r & Hr & Hpr).
  rewrite <- Hsplit, <- Hidx in Hr.
  rewrite (processTrim_split pdf_decode st tf Hl Hne). simpl.
  fold n del. unfold partitionPages.
  eexists. split_and!.
  - rewrite list_lookup_imap, Hr. reflexivity.
  - simpl. unfold partName.
    assert (Hge : 1 ≤ partNum).
    { unfold partNum. rewrite getPartForPage_count. lia. }
    rewrite Z2Nat.id by lia.
    by replace (partNum - 1 + 1) with partNum by lia.
  - simpl. apply list_elem_of_fmap. eauto.
Qed.

Lemma part_number_is_file_number_witness :
  let st := mkState [] (Some (mkTrimFile fivePages "report.pdf" 5))
                    [2; 4] {[3]} ∅ None in
  ∃ d, (processTrim sampleDecode st).2 !! 2%nat = Some d
       ∧ dl_name d = "report-part3.pdf"%string
       ∧ mkPage fivePages 4 None ∈ dl_pages d.
Proof.
  intros st.
  assert (Hl : trimLoaded sampleDecode st (mkTrimFile fivePages "report.pdf" 5))
    by (split; reflexivity).
  assert (Hne : cutPoints st ≠ []) by discriminate.
  assert (Hnd : NoDup (cutPoints st)).
  { apply increasing_NoDup. repeat constructor. }
  assert (Hcuts : ∀ c, c ∈ cutPoints st → (1 ≤ c ≤ 5) ∧ c ∉ deletedPages st).
  { simpl. intros c Hc.
    assert (c = 2 ∨ c = 4) as [-> | ->].
    { apply elem_of_cons in Hc as [-> | Hc]; [by left |].
      apply elem_of_cons in Hc as [-> | Hc]; [by right |].
      by apply elem_of_nil in Hc. }
    - split; [lia |]. apply not_elem_of_singleton. discriminate.
    - split; [lia |]. apply not_elem_of_singleton. discriminate. }
  assert (Hp : 1 ≤ 5 ≤ 5) by lia.
  assert (Hd : 5 ∉ deletedPages st).
  { simpl. apply not_elem_of_singleton. discriminate. }
  exact (part_number_is_file_number sampleDecode st _ 5 Hl Hne Hnd Hcuts Hp Hd).
Defined.

(** X9 (number of files written): for a loaded document with cut points,
    [processTrim] writes at most as many files as the button announces,
    [cutPoints.length + 1]; it writes exactly that many when the cut points
    are distinct and each is on a surviving page other than the last
    surviving one. *)
Theorem files_written_count (pdf_decode : File → option nat)
    (st : AppState) (tf : TrimFile) :
  trimLoaded pdf_decode st tf → cutPoints st ≠ [] →
  let active := activePageNums (tf_pageCount tf) (deletedPages st) in
  let out := (processTrim pdf_decode st).2 in
  Z.of_nat (length out) ≤ filesAnnounced st
  ∧ (NoDup (cutPoints st) →
     (∀ c, c ∈ cutPoints st → c ∈ active ∧ last active ≠ Some c) →
     Z.of_nat (length out) = filesAnnounced st).
Proof.
  intros Hl Hne active out.
  assert (Hlen : length out
    = (length (filter (λ x, x ∈ sortAscending (cutPoints st)) active)
       + (if bool_decide
               (0 < length (walk (sortAscending (cutPoints st)) active).2)%nat
          then 1 else 0))%nat).
  { unfold out. rewrite (processTrim_split pdf_decode st tf Hl Hne). simpl.
    rewrite length_imap. apply length_buildRanges. }
  pose proof (activePageNums_NoDup (tf_pageCount tf) (deletedPages st)) as Hnd.
  fold active in Hnd. unfold filesAnnounced. split.
  - pose proof (cuts_met_le (cutPoints st) active Hnd).
    rewrite Hlen. case_bool_decide; lia.
  - intros Hc Hsub.
    rewrite Hlen, (cuts_met_all (cutPoints st) active Hnd Hc)
      by (intros c Hin; by apply Hsub).
    rewrite bool_decide_eq_true_2; [lia |].
    destruct (cutPoints st) as [| c0 cs] eqn:Ecuts; [done |].
    destruct (Hsub c0) as [Hc0 _]; [by left |].
    destruct (last active) as [x |] eqn:Elast.
    + apply last_Some in Elast as [l' El]. rewrite El.
      assert (Hx : x ∉ c0 :: cs).
      { intros Hin. destruct (Hsub x Hin) as [_ Hl']. by destruct Hl'. }
      pose proof (walk_open_last (c0 :: cs) l' x Hx) as Hopen.
      destruct (walk (sortAscending (c0 :: cs)) (l' ++ [x])).2;
        [by destruct Hopen | simpl; lia].
    + apply last_None in Elast. rewrite Elast in Hc0.
      by apply elem_of_nil in Hc0.
Qed.

Lemma files_written_count_witness :
  let st := mkState [] (Some (mkTrimFile fivePages "report.pdf" 5))
                    [2; 3] {[3]} ∅ None in
  Z.of_nat (length (processTrim sampleDecode st).2) ≤ 3.
Proof.
  intros st.
  assert (Hl : trimLoaded sampleDecode st (mkTrimFile fivePages "report.pdf" 5))
    by (split; reflexivity).
  assert (Hne : cutPoints st ≠ []) by discriminate.
  exact (proj1 (files_written_count sampleDecode st _ Hl Hne)).
Defined.

(** X10 (split preview): the badges of the split preview are, in order, the
    parts of the partition that [processTrim] writes, each numbered from 1
    and labelled by [rangeLabel]; for a loaded document with cut points
    there are as many badges as files written. *)
Theorem preview_shows_the_parts (pdf_decode : File → option nat)
    (st : AppState) (tf : TrimFile) :
  trimLoaded pdf_decode st tf → cutPoints st ≠ [] →
  let parts :=
    partitionPages (tf_pageCount tf) (cutPoints st) (deletedPages st) in
  let badges :=
    previewBadges (tf_pageCount tf) (cutPoints st) (deletedPages st) in
  badges
  = imap (λ i r, "PART " +:+ pretty (Z.of_nat i + 1) +:+ ": " +:+ rangeLabel r)
         parts
  ∧ length badges = length (processTrim pdf_decode st).2.
Proof.
  intros Hl Hne parts badges.
  assert (Hb : badges
    = imap (λ i r, "PART " +:+ pretty (Z.of_nat i + 1) +:+ ": " +:+ rangeLabel r)
           parts).
  { unfold badges, parts. by rewrite previewBadges_ranges, imap_fmap. }
  split; [done |].
  rewrite Hb, length_imap, (processTrim_split pdf_decode st tf Hl Hne). simpl.
  by rewrite length_imap.
Qed.

Lemma preview_shows_the_parts_witness :
  let st := mkState [] (Some (mkTrimFile fivePages "report.pdf" 5))
                    [2; 3] {[3]} ∅ None in
  previewBadges 5 [2; 3] {[3]} = ["PART 1: 1–2"; "PART 2: 4–5"]%string
  ∧ length (previewBadges 5 [2; 3] {[3]})
    = length (processTrim sampleDecode st).2.
Proof.
  intros st.
  assert (Hl : trimLoaded sampleDecode st (mkTrimFile fivePages "report.pdf" 5))
    by (split; reflexivity).
  assert (Hne : cutPoints st ≠ []) by discriminate.
  destruct (preview_shows_the_parts sampleDecode st _ Hl Hne) as [Hb Hlen].
  split; [| exact Hlen]. etrans; [exact Hb |]. vm_compute. reflexivity.
Defined.

(** X11 (nothing lost, nothing added): for a loaded document with some
    edit and a surviving page (at most [pageCount - 1] pages deleted), with
    or without cut points, the documents that [processTrim] writes, laid end
    to end, are exactly the surviving pages in original order, each with
    its rotation; no deleted page is written and no document is without
    pages. *)
Theorem downloads_cover_survivors (pdf_decode : File → option nat)
    (st : AppState) (tf : TrimFile) :
  trimLoaded pdf_decode st tf → hasModifications st = true →
  Z.of_nat (size (deletedPages st)) ≤ tf_pageCount tf - 1 →
  concat (dl_pages <$> (processTrim pdf_decode st).2)
  = trimmedPage (tf_file tf) (rotations st)
      <$> activePageNums (tf_pageCount tf) (deletedPages st)
  ∧ Forall (λ d, dl_pages d ≠ []) (processTrim pdf_decode st).2.
Proof.
  intros Hl Hmod Hvalid. pose proof (survivor_exists _ _ Hvalid) as Hsurv.
  destruct (decide (cutPoints st = [])) as [Hc | Hc].
  - rewrite (processTrim_trim pdf_decode st tf Hl Hc Hmod). simpl.
    split; [by rewrite app_nil_r |].
    constructor; [| constructor]. simpl. by intros E%fmap_nil_inv.
  - rewrite (processTrim_split pdf_decode st tf Hl Hc). simpl. split.
    + rewrite fmap_imap.
      rewrite <- (partitionPages_concat (tf_pageCount tf) (cutPoints st)
                    (deletedPages st)).
      rewrite <- concat_fmap. f_equal.
      rewrite <- imap_const. by apply imap_ext.
    + apply Forall_forall. intros d Hd.
      apply list_elem_of_lookup_1 in Hd as [i Hi].
      apply list_lookup_imap_Some in Hi as (r & Hr & ->). simpl.
      intros E%fmap_nil_inv.
      pose proof (buildRanges_nonempty (cutPoints st)
        (activePageNums (tf_pageCount tf) (deletedPages st))) as Hne.
      rewrite Forall_forall in Hne.
      by eapply Hne; [eapply list_elem_of_lookup_2 |].
Qed.

Lemma downloads_cover_survivors_witness :
  let st := mkState [] (Some (mkTrimFile fivePages "report.pdf" 5))
                    [2; 3] {[3]} {[4 := 180]} None in
  concat (dl_pages <$> (processTrim sampleDecode st).2)
  = [mkPage fivePages 0 None; mkPage fivePages 1 None;
     mkPage fivePages 3 (Some 180); mkPage fivePages 4 None].
Proof.
  intros st.
  assert (Hl : trimLoaded sampleDecode st (mkTrimFile fivePages "report.pdf" 5))
    by (split; reflexivity).
  assert (Hm : hasModifications st = true) by reflexivity.
  assert (Hv : Z.of_nat (size (deletedPages st)) ≤ 5 - 1).
  { vm_compute. discriminate. }
  destruct (downloads_cover_survivors sampleDecode st _ Hl Hm Hv) as [-> _].
  vm_compute. reflexivity.
Defined.

(** ** The merge queue *)

Section Queue.
Variable pdf_decode : File → option nat.
Implicit Types (st : AppState) (new_id : nat → string).

Lemma addFiles_length new_id (newFiles : list File) st :
  (length (files st) ≤ 5)%nat →
  (length (files (addFiles pdf_decode new_id newFiles st)) ≤ 5)%nat.
Proof.
  intros Hm. rewrite addFiles_files by done.
  rewrite length_app, length_imap, length_take. lia.
Qed.

Lemma addFiles_others new_id (newFiles : list File) st :
  trimFile (addFiles pdf_decode new_id newFiles st) = trimFile st
  ∧ cutPoints (addFiles pdf_decode new_id newFiles st) = cutPoints st
  ∧ deletedPages (addFiles pdf_decode new_id newFiles st) = deletedPages st
  ∧ rotations (addFiles pdf_decode new_id newFiles st) = rotations st.
Proof.
  unfold addFiles. case_bool_decide; [done |]. by case_bool_decide.
Qed.

Lemma filter_other_ids (fs : list PDFFile) (id : string) :
  Forall (λ f, pf_id f ≠ id) fs → filter (λ f, pf_id f ≠ id) fs = fs.
Proof.
  induction 1 as [| f fs Hf Hfs IH]; [done |].
  rewrite filter_cons, decide_True by done. by rewrite IH.
Qed.

Lemma addFiles_rendered new_id (newFiles : list File) st :
  addFilesRendered pdf_decode (length (files st)) new_id newFiles st
  = addFiles pdf_decode new_id newFiles st.
Proof. reflexivity. Qed.

Lemma addFilesRendered_files (r : nat) new_id (newFiles : list File) st :
  (r ≤ 5)%nat →
  files (addFilesRendered pdf_decode r new_id newFiles st)
  = files st
    ++ imap (queued pdf_decode new_id)
            (take (5 - r) (filter (λ f, isPdf f = true) newFiles)).
Proof.
  intros Hr. unfold addFilesRendered. simpl.
  set (pdfFiles := filter (λ f, isPdf f = true) newFiles).
  case_bool_decide as Hk.
  { apply nil_length_inv in Hk. rewrite Hk, take_nil. simpl.
    by rewrite app_nil_r. }
  unfold slice0, MAX_FILES.
  rewrite (bool_decide_eq_false_2 (5 - Z.of_nat r < 0)) by lia.
  replace (Z.to_nat (5 - Z.of_nat r)) with (5 - r)%nat by lia.
  by case_bool_decide.
Qed.

Lemma addFilesRendered_length (r : nat) new_id (newFiles : list File) st :
  (r ≤ 5)%nat →
  length (files (addFilesRendered pdf_decode r new_id newFiles st))
  = (length (files st)
     + length (filter (λ f, isPdf f = true) newFiles) `min` (5 - r))%nat.
Proof.
  intros Hr. rewrite addFilesRendered_files by done.
  rewrite length_app, length_imap, length_take. lia.
Qed.

Lemma addFilesRendered_consistent (r : nat) new_id (newFiles : list File) st :
  queueConsistent pdf_decode (files st) →
  queueConsistent pdf_decode
    (files (addFilesRendered pdf_decode r new_id newFiles st)).
Proof.
  intros Hc. unfold addFilesRendered. simpl. case_bool_decide; [done |].
  assert (Hnew : ∀ l : list File,
            queueConsistent pdf_decode
              (imap (λ i file, mkPDFFile (new_id i) file (file_name file)
                                 (getPageCount pdf_decode file)) l)).
  { intros l. apply Forall_forall. intros f Hf.
    apply list_elem_of_lookup_1 in Hf as [i Hi].
    by apply list_lookup_imap_Some in Hi as (file & _ & ->). }
  case_bool_decide; simpl; apply Forall_app; split; auto; apply Hnew.
Qed.

End Queue.

(** X12 (capacity of the queue): a call of [addFiles] appends
    [min k (5 - r)] entries, [k] being the number of offered files that
    pass the PDF test and [r <= 5] the queue length of the render that
    created the callback.  A call that runs on the queue it was rendered
    with is the sequential handler and leaves at most five files in the
    queue; two calls created by the same render each append up to [5 - r]
    entries, so that the queue can grow beyond five; [removeFile] never
    lengthens the queue. *)
Theorem queue_capacity (pdf_decode : File → option nat)
    (id1 id2 : nat → string) (offered1 offered2 : list File)
    (id : string) (r : nat) (st : AppState) :
  (r ≤ 5)%nat →
  let k1 := length (filter (λ f, isPdf f = true) offered1) in
  let k2 := length (filter (λ f, isPdf f = true) offered2) in
  length (files (addFilesRendered pdf_decode r id1 offered1 st))
  = (length (files st) + k1 `min` (5 - r))%nat
  ∧ (r = length (files st) →
     addFilesRendered pdf_decode r id1 offered1 st
     = addFiles pdf_decode id1 offered1 st
     ∧ (length (files (addFiles pdf_decode id1 offered1 st)) ≤ 5)%nat)
  ∧ length (files (addFilesRendered pdf_decode r id2 offered2
                     (addFilesRendered pdf_decode r id1 offered1 st)))
    = (length (files st) + k1 `min` (5 - r) + k2 `min` (5 - r))%nat
  ∧ (length (files (removeFile id st)) ≤ length (files st))%nat.
Proof.
  intros Hr k1 k2. split_and!.
  - by apply addFilesRendered_length.
  - intros ->. split; [apply addFiles_rendered |].
    by apply addFiles_length.
  - by rewrite !addFilesRendered_length.
  - unfold removeFile. simpl. apply length_filter.
Qed.

Lemma queue_capacity_witness :
  let st := addFiles sampleDecode sampleId
              [threePages; twoPages; unreadable] initialState in
  length (files (addFilesRendered sampleDecode 3 sampleId [threePages]
                   (addFilesRendered sampleDecode 3 sampleId
                                     [fivePages; twoPages] st)))
  = 6%nat.
Proof.
  intros st.
  assert (Hr : (3 ≤ 5)%nat) by lia.
  destruct (queue_capacity sampleDecode sampleId sampleId
              [fivePages; twoPages] [threePages] ""%string 3 st Hr)
    as (_ & _ & H & _).
  rewrite H. vm_compute. reflexivity.
Defined.

(** X13 (adding a file and removing it): when the identifier given to a new
    file is not yet used in the queue, adding one PDF file to a queue with a
    free slot and removing it by that identifier gives the queue back, with
    no error left; removing an identifier that no entry carries changes
    nothing in the queue. *)
Theorem remove_added_file (pdf_decode : File → option nat)
    (new_id : nat → string) (file : File) (st : AppState) :
  isPdf file = true → (length (files st) < 5)%nat →
  Forall (λ f, pf_id f ≠ new_id 0%nat) (files st) →
  files (removeFile (new_id 0%nat) (addFiles pdf_decode new_id [file] st))
  = files st
  ∧ error (removeFile (new_id 0%nat) (addFiles pdf_decode new_id [file] st))
    = None
  ∧ files (removeFile (new_id 0%nat) st) = files st.
Proof.
  intros Hpdf Hm Hfresh. split_and!.
  - unfold removeFile. simpl. rewrite addFiles_files by lia.
    rewrite filter_cons, decide_True by done. rewrite filter_nil.
    destruct (5 - length (files st))%nat as [| a] eqn:Ea; [lia |].
    simpl. rewrite take_nil. simpl. rewrite filter_app.
    rewrite filter_other_ids by done.
    rewrite filter_cons, filter_nil. unfold queued. simpl.
    rewrite decide_False by (intros H; by apply H). by rewrite app_nil_r.
  - done.
  - unfold removeFile. simpl. by apply filter_other_ids.
Qed.

Lemma remove_added_file_witness :
  let st := addFiles sampleDecode sampleId [threePages] initialState in
  files (removeFile "new" (addFiles sampleDecode (λ _, "new"%string)
                                    [twoPages] st))
  = files st.
Proof.
  intros st.
  apply (remove_added_file sampleDecode (λ _, "new"%string) twoPages st).
  - reflexivity.
  - vm_compute. lia.
  - repeat constructor. discriminate.
Defined.

(** X14 (a rejected file changes nothing): [addFiles] offered no PDF file
    only sets the error "Only PDF files are accepted".  [addTrimFile] either
    loads the first PDF file offered, which then decodes to at least one
    page, with empty cut points, deletions and rotations and no error, or
    it changes nothing but the error: the loaded document and its edits
    stay as they were. *)
Theorem rejected_files_change_nothing (pdf_decode : File → option nat)
    (renders : File → bool) (new_id : nat → string) (offered : list File)
    (st : AppState) :
  (filter (λ f, isPdf f = true) offered = [] →
   addFiles pdf_decode new_id offered st
   = setError (Some "Only PDF files are accepted"%string) st)
  ∧ ((∃ msg, addTrimFile pdf_decode renders offered st
             = setError (Some msg) st)
     ∨ (∃ file n,
          head (filter (λ f, isPdf f = true) offered) = Some file
          ∧ getPageCount pdf_decode file = Some n ∧ 1 ≤ n
          ∧ addTrimFile pdf_decode renders offered st
            = mkState (files st)
                      (Some (mkTrimFile file (file_name file) n))
                      [] ∅ ∅ None)).
Proof.
  split.
  - intros Hnone. unfold addFiles. rewrite Hnone. done.
  - unfold addTrimFile.
    destruct (filter _ offered) as [| file rest]; [left; by eexists |].
    destruct (getPageCount pdf_decode file) as [n |] eqn:Hn;
      [| left; by eexists].
    case_bool_decide; [left; by eexists |].
    destruct (renders file); [| left; by eexists].
    right. exists file, n. split_and!; [done | done | lia | done].
Qed.

Lemma rejected_files_change_nothing_witness :
  let st := mkState [] (Some (mkTrimFile fivePages "report.pdf" 5))
                    [2] {[4]} ∅ None in
  addFiles sampleDecode sampleId [mkFile "notes.txt" "text/plain" [1%N]] st
  = setError (Some "Only PDF files are accepted"%string) st.
Proof.
  intros st.
  apply (rejected_files_change_nothing sampleDecode sampleRenders sampleId
           [mkFile "notes.txt" "text/plain" [1%N]] st).
  vm_compute. reflexivity.
Defined.

(** ** File names *)

Section Names.
Implicit Types (s ext name : string).

Lemma list_ascii_of_string_app s1 s2 :
  list_ascii_of_string (s1 +:+ s2)
  = list_ascii_of_string s1 ++ list_ascii_of_string s2.
Proof. induction s1 as [| c s1 IH]; [done |]. simpl. by rewrite IH. Qed.

Lemma list_ascii_of_toLowerCase s :
  list_ascii_of_string (toLowerCase s) = lower_ascii <$> list_ascii_of_string s.
Proof. unfold toLowerCase. apply list_ascii_of_string_of_list_ascii. Qed.

Lemma endsWith_app s ext :
  endsWith (toLowerCase (s +:+ ext)) (toLowerCase ext) = true.
Proof.
  unfold endsWith. apply bool_decide_eq_true_2.
  rewrite !list_ascii_of_toLowerCase, list_ascii_of_string_app, fmap_app.
  by apply suffix_app_r.
Qed.

Lemma length_extension ext :
  toLowerCase ext = ".pdf"%string → length (list_ascii_of_string ext) = 4%nat.
Proof.
  intros H. apply (f_equal (λ t, length (list_ascii_of_string t))) in H.
  rewrite list_ascii_of_toLowerCase, length_fmap in H. exact H.
Qed.

End Names.

(** X15 (the extension is dropped whatever its case): a file name that ends
    in ".pdf" in any mix of upper and lower case passes the PDF test, and
    [baseNameOf] removes exactly that extension, so the downloads of
    "Report.PDF" are named "Report-trimmed.pdf" and "Report-part1.pdf"; a
    name without the extension is kept whole. *)
Theorem extension_dropped (s ext ty : string) (bytes : list N) :
  toLowerCase ext = ".pdf"%string →
  baseNameOf (s +:+ ext) = s
  ∧ isPdf (mkFile (s +:+ ext) ty bytes) = true
  ∧ (∀ name, endsWith (toLowerCase name) ".pdf" = false →
             baseNameOf name = name).
Proof.
  intros Hext.
  assert (Hends : endsWith (toLowerCase (s +:+ ext)) ".pdf" = true).
  { rewrite <- Hext. apply endsWith_app. }
  split_and!.
  - unfold baseNameOf. rewrite Hends.
    rewrite list_ascii_of_string_app, length_app, (length_extension ext Hext).
    replace (length (list_ascii_of_string s) + 4 - 4)%nat
      with (length (list_ascii_of_string s)) by lia.
    rewrite take_app_length. apply string_of_list_ascii_of_string.
  - unfold isPdf. simpl. rewrite Hends. apply orb_true_r.
  - intros name Hname. unfold baseNameOf. by rewrite Hname.
Qed.

Lemma extension_dropped_witness :
  baseNameOf "Report.PDF" = "Report"%string
  ∧ isPdf (mkFile "Report.PDF" "" []) = true.
Proof.
  assert (H : toLowerCase ".PDF" = ".pdf"%string) by reflexivity.
  destruct (extension_dropped "Report" ".PDF" "" [] H) as (H1 & H2 & _).
  split; [exact H1 | exact H2].
Defined.

(** ** A whole trim session *)

Section Session.
Variable pdf_decode : File → option nat.
Implicit Types (st : AppState) (tf : TrimFile).

Lemma applyAction_invariant (a : TrimAction) st tf :
  sessionInvariant pdf_decode st tf →
  sessionInvariant pdf_decode (applyAction a st) tf.
Proof.
  intros ([Htf Hcount] & Hdel & Hsorted & Hlen & Hrot).
  unfold sessionInvariant, trimLoaded. destruct a as [c | p | p]; simpl.
  - destruct (toggleCutPoint_others c st) as (_ & -> & -> & ->).
    split_and!; try done.
    + by apply toggleCutPoint_increasing.
    + by apply toggleCutPoint_length.
  - destruct (toggleDeletePage_others p st) as (_ & -> & -> & ->).
    split_and!; try done. by apply toggleDeletePage_size.
  - split_and!; try done. by apply rotateMap_valid.
Qed.

Lemma applyActions_invariant (acts : list TrimAction) st tf :
  sessionInvariant pdf_decode st tf →
  sessionInvariant pdf_decode (applyActions acts st) tf.
Proof.
  revert st. induction acts as [| a acts IH]; intros st Hst; [done |].
  simpl. by apply IH, applyAction_invariant.
Qed.

Lemma addTrimFile_invariant renders (newFiles : list File) st tf :
  trimFile st = None →
  trimFile (addTrimFile pdf_decode renders newFiles st) = Some tf →
  sessionInvariant pdf_decode (addTrimFile pdf_decode renders newFiles st) tf.
Proof.
  intros Hnone. unfold addTrimFile.
  destruct (filter _ newFiles) as [| file rest]; simpl; [congruence |].
  destruct (getPageCount pdf_decode file) as [n |] eqn:Hn; simpl; [| congruence].
  case_bool_decide; simpl; [congruence |].
  destruct (renders file); simpl; [| congruence].
  intros [= <-]. unfold sessionInvariant, trimLoaded.
  split_and!; [done | done | | constructor | simpl; lia |].
  - change (Z.of_nat (size (∅ : gset Z)) ≤ n - 1). rewrite size_empty. lia.
  - apply map_Forall_empty.
Qed.

Lemma invariant_output st tf :
  sessionInvariant pdf_decode st tf → hasModifications st = true →
  error (processTrim pdf_decode st).1 = None
  ∧ (1 ≤ length (processTrim pdf_decode st).2 ≤ 5)%nat
  ∧ Forall (λ d, dl_pages d ≠ []) (processTrim pdf_decode st).2.
Proof.
  intros (Hl & Hdel & Hsorted & Hlen & Hrot) Hmod.
  pose proof (survivor_exists _ _ Hdel) as Hsurv.
  destruct (decide (cutPoints st = [])) as [Hc | Hc].
  - rewrite (processTrim_trim pdf_decode st tf Hl Hc Hmod). simpl.
    split_and!; [done | lia | lia |].
    constructor; [| constructor]. simpl. by intros E%fmap_nil_inv.
  - rewrite (processTrim_split pdf_decode st tf Hl Hc). simpl.
    rewrite length_imap. unfold partitionPages. split_and!.
    + done.
    + pose proof (buildRanges_concat (cutPoints st)
        (activePageNums (tf_pageCount tf) (deletedPages st))) as Hcat.
      destruct (buildRanges _ _); [by destruct Hsurv | simpl; lia].
    + rewrite length_buildRanges.
      pose proof (cuts_met_le (cutPoints st) _
                    (activePageNums_NoDup (tf_pageCount tf) (deletedPages st))).
      case_bool_decide; lia.
    + apply Forall_forall. intros d Hd.
      apply list_elem_of_lookup_1 in Hd as [i Hi].
      apply list_lookup_imap_Some in Hi as (r & Hr & ->). simpl.
      intros E%fmap_nil_inv.
      pose proof (buildRanges_nonempty (cutPoints st)
        (activePageNums (tf_pageCount tf) (deletedPages st))) as Hne.
      rewrite Forall_forall in Hne.
      by eapply Hne; [eapply list_elem_of_lookup_2 |].
Qed.

End Session.

(** X16 (a trim session cannot go wrong): after [addTrimFile] has loaded a
    document into a page that had none, any sequence of cut toggles, delete
    toggles and rotations, on any page numbers, leaves at least one page
    alive, at most four cut points in strictly increasing order and only
    rotations of 90, 180 or 270 degrees; and whenever there is something to
    process, [processTrim] reports no error and writes between one and five
    documents, none of them empty. *)
Theorem trim_session_sound (pdf_decode : File → option nat)
    (renders : File → bool) (offered : list File) (acts : list TrimAction)
    (st0 : AppState) (tf : TrimFile) :
  trimFile st0 = None →
  trimFile (addTrimFile pdf_decode renders offered st0) = Some tf →
  let st := applyActions acts (addTrimFile pdf_decode renders offered st0) in
  trimFile st = Some tf
  ∧ activePageNums (tf_pageCount tf) (deletedPages st) ≠ []
  ∧ StronglySorted Z.lt (cutPoints st)
  ∧ (length (cutPoints st) ≤ 4)%nat
  ∧ rotationsValid (rotations st)
  ∧ (hasModifications st = true →
     error (processTrim pdf_decode st).1 = None
     ∧ (1 ≤ length (processTrim pdf_decode st).2 ≤ 5)%nat
     ∧ Forall (λ d, dl_pages d ≠ []) (processTrim pdf_decode st).2).
Proof.
  intros Hnone Hload st.
  pose proof (addTrimFile_invariant pdf_decode renders offered st0 tf Hnone Hload)
    as Hinv0.
  pose proof (applyActions_invariant pdf_decode acts _ tf Hinv0) as Hinv.
  fold st in Hinv.
  pose proof Hinv as ([Htf _] & Hdel & Hsorted & Hlen & Hrot).
  split_and!; try done.
  - by apply survivor_exists.
  - intros Hmod. by apply (invariant_output pdf_decode st tf).
Qed.

Lemma trim_session_sound_witness :
  let acts := [ToggleDelete 1; ToggleDelete 2; ToggleDelete 3; ToggleCut 9;
               Rotate 2; ToggleCut 2; ToggleDelete 2] in
  let st := applyActions acts
              (addTrimFile sampleDecode sampleRenders [threePages] initialState) in
  error (processTrim sampleDecode st).1 = None
  ∧ (1 ≤ length (processTrim sampleDecode st).2 ≤ 5)%nat
  ∧ Forall (λ d, dl_pages d ≠ []) (processTrim sampleDecode st).2.
Proof.
  intros acts st.
  assert (Hnone : trimFile initialState = None) by reflexivity.
  assert (Hload : trimFile (addTrimFile sampleDecode sampleRenders [threePages]
                              initialState)
                  = Some (mkTrimFile threePages "a.pdf" 3)) by reflexivity.
  destruct (trim_session_sound sampleDecode sampleRenders [threePages] acts
              initialState _ Hnone Hload) as (_ & _ & _ & _ & _ & H).
  apply H. vm_compute. reflexivity.
Defined.

(** ** A whole merge session *)

Section MergeSession.
Variable pdf_decode : File → option nat.

Lemma mergeReachable_consistent (st : AppState) :
  mergeReachable pdf_decode st → queueConsistent pdf_decode (files st).
Proof.
  induction 1 as [| r new_id offered st _ IH | id st _ IH
                  | newOrder shown st _ IH _ IHshown Hperm | st _ IH].
  - constructor.
  - by apply addFilesRendered_consistent.
  - unfold removeFile. simpl. apply Forall_forall. intros f Hf.
    apply list_elem_of_filter in Hf as [_ Hf].
    unfold queueConsistent in IH. rewrite Forall_forall in IH. auto.
  - simpl. apply Forall_forall. intros f Hf. rewrite Hperm in Hf.
    unfold queueConsistent in IHshown. rewrite Forall_forall in IHshown. auto.
  - constructor.
Qed.

End MergeSession.

(** X18 (a merge session): after any sequence of calls of [addFiles]
    (overlapping or not), [removeFile], reorderings and resets by the
    timer of a merge from the empty page, every entry of the queue carries the page count that the decoder
    reports for its file, and [mergePDFs] does one of three things: with
    fewer than two files nothing at all; with a file whose page count is
    null it sets the error and writes nothing; and when every page count is
    at least one it writes one document with the pages of the queued files
    in the order of the queue, as many as the total shown above the
    list. *)
Theorem merge_session_sound (pdf_decode : File → option nat) (now : Z)
    (st : AppState) :
  mergeReachable pdf_decode st →
  queueConsistent pdf_decode (files st)
  ∧ ((length (files st) < 2)%nat → mergePDFs pdf_decode now st = (st, []))
  ∧ ((2 ≤ length (files st))%nat →
     Exists (λ f, pf_pageCount f = None) (files st) →
     mergePDFs pdf_decode now st = (setError mergeFailed st, []))
  ∧ ((2 ≤ length (files st))%nat →
     Forall (λ f, ∃ n, pf_pageCount f = Some n ∧ 1 ≤ n) (files st) →
     ∃ pages,
       mergePDFs pdf_decode now st
       = (setError None st,
          [mkDownload ("merged-" +:+ pretty now +:+ ".pdf") pages])
       ∧ pages ≠ []
       ∧ pageOrigin <$> pages = plan_merge (files st)
       ∧ Z.of_nat (length pages) = totalPages (files st)).
Proof.
  intros Hreach.
  pose proof (mergeReachable_consistent pdf_decode st Hreach) as Hc.
  split_and!.
  - done.
  - intros Hlt. unfold mergePDFs. by rewrite bool_decide_eq_true_2.
  - intros H2 He. unfold mergePDFs. rewrite bool_decide_eq_false_2 by lia.
    simpl. by rewrite (mergeLoop_unknown pdf_decode (files st) [] Hc He).
  - intros H2 Hpos. pose proof (positive_known _ Hpos) as Hk.
    exists (flat_map pagesOfSource (files st)). split_and!.
    + unfold mergePDFs. rewrite bool_decide_eq_false_2 by lia. simpl.
      by rewrite (mergeLoop_known pdf_decode (files st) [] Hc Hk).
    + apply positive_nonempty; [| done]. intros E. rewrite E in H2.
      simpl in H2. lia.
    + apply pageOrigin_pagesOfSource.
    + apply length_pagesOfSource. by eapply consistent_nonneg.
Qed.

Lemma merge_session_sound_witness :
  let st1 := addFilesRendered sampleDecode 0 sampleId [threePages; twoPages]
                              initialState in
  let st := setFiles (reverse (files st1)) st1 in
  ∃ pages,
    mergePDFs sampleDecode 17 st
    = (setError None st, [mkDownload "merged-17.pdf" pages])
    ∧ pageOrigin <$> pages
      = [(twoPages, 1); (twoPages, 2);
         (threePages, 1); (threePages, 2); (threePages, 3)].
Proof.
  intros st1 st.
  assert (Hreach1 : mergeReachable sampleDecode st1)
    by apply reach_addFiles, reach_initial.
  assert (Hreach : mergeReachable sampleDecode st).
  { apply (reach_reorder sampleDecode _ st1 st1 Hreach1 Hreach1).
    apply reverse_Permutation. }
  destruct (merge_session_sound sampleDecode 17 st Hreach)
    as (_ & _ & _ & Hok).
  destruct Hok as (pages & Hm & _ & Ho & _).
  - vm_compute. lia.
  - repeat constructor.
    + exists 2. split; [reflexivity | lia].
    + exists 3. split; [reflexivity | lia].
  - exists pages. split; [exact Hm |]. rewrite Ho. vm_compute. reflexivity.
Defined.
